(** * cards.py: seven ways to sort a deck of card faces

    A shallow embedding of [src/cards.py].  Python list objects live in a
    store and are reached through references, so that aliasing and in-place
    updates ([ret[index] = ...], [ret.extend(...)], [bucket.append(...)])
    are visible; dictionaries that never leave the function that builds them
    are local finite maps. *)

From Stdlib Require Import ZArith Lia.
From stdpp Require Import base list gmap strings sorting.

Local Open Scope Z_scope.

(** ** Python values, exceptions and the store *)

Module Py.

(** The values that occur in [card_faces], in decks and in the working
    lists: strings and integers. *)
Inductive val : Type :=
  | Str (s : string)
  | Int (z : Z).

#[export] Instance val_eq_dec : EqDecision val.
Proof. solve_decision. Defined.

Definition val_to_sum (v : val) : string + Z :=
  match v with Str s => inl s | Int z => inr z end.

Definition val_of_sum (x : string + Z) : val :=
  match x with inl s => Str s | inr z => Int z end.

#[export] Instance val_countable : Countable val.
Proof.
  apply (inj_countable' val_to_sum val_of_sum). by intros [].
Defined.

(** The exceptions the strategies can raise. *)
Inductive exn : Type :=
  | KeyError (k : val)      (* d[k] on a dict without key k *)
  | ValueError (x : val)    (* l.index(x) with x not in l *)
  | IndexError              (* l[i] with i out of range *)
  | TypeError               (* l[i] with a non-integer i *)
  | AssertionError.         (* assert on a false condition *)

Inductive outcome (A : Type) : Type :=
  | Ok (a : A)
  | Raise (e : exn).
Arguments Ok {A} a.
Arguments Raise {A} e.

(** A reference to a list object, and the store of all list objects.
    References are handed out in allocation order. *)
Definition loc := nat.
Abbreviation heap := (list (list val)).

(** Computations that read and update the store and may raise. *)
Definition M (A : Type) : Type := heap → outcome A * heap.

Definition pure {A} (a : A) : M A := λ h, (Ok a, h).

Definition bind {A B} (m : M A) (k : A → M B) : M B :=
  λ h, match m h with
       | (Ok a, h') => k a h'
       | (Raise e, h') => (Raise e, h')
       end.

Definition lift {A} (o : outcome A) : M A := λ h, (o, h).

Declare Scope py_scope.
Delimit Scope py_scope with py.
Notation "x <- m ;; k" := (bind m (λ x, k))
  (at level 100, m at next level, right associativity) : py_scope.
Notation "m ;;; k" := (bind m (λ _, k))
  (at level 100, right associativity) : py_scope.
Local Open Scope py_scope.

(** The contents of the list object at [l]. *)
Definition contents (h : heap) (l : loc) : list val := default [] (h !! l).

(** A list display or any other expression that builds a new list object. *)
Definition new_list (xs : list val) : M loc :=
  λ h, (Ok (length h), h ++ [xs]).

(** [l[:]]: a new list object with the same elements. *)
Definition copy (l : loc) : M loc :=
  λ h, new_list (contents h l) h.

(** [l[i] = v] for an index produced by [enumerate(l)]. *)
Definition setitem (l : loc) (i : nat) (v : val) : M unit :=
  λ h, match h !! l with
       | Some xs =>
           if decide (i < length xs)%nat
           then (Ok (), <[l := <[i := v]> xs]> h)
           else (Raise IndexError, h)
       | None => (Raise IndexError, h)
       end.

(** [l.extend(xs)] for a sequence [xs] of values. *)
Definition extend (l : loc) (xs : list val) : M unit :=
  λ h, (Ok (), <[l := contents h l ++ xs]> h).

(** [l.extend(l')] for a list object [l']. *)
Definition extend_from (l l' : loc) : M unit :=
  λ h, extend l (contents h l') h.

(** [l.append(v)]. *)
Definition append (l : loc) (v : val) : M unit :=
  λ h, (Ok (), <[l := contents h l ++ [v]]> h).

(** [for i, x in enumerate(l): s = body(i, x, s)], where [s] stands for
    the local variables the body rebinds.  The list iterator keeps an index
    and reads the list object afresh at every step, so an update of [l] by
    the body is seen by the later steps; it stops at the first index beyond
    the end.  [n] bounds the number of steps. *)
Fixpoint for_from {S} (n : nat) (i : nat) (l : loc)
    (body : nat → val → S → M S) (s : S) : M S :=
  match n with
  | O => pure s
  | Datatypes.S n' =>
      λ h, match contents h l !! i with
           | Some x => (s' <- body i x s ;; for_from n' (Datatypes.S i) l body s') h
           | None => (Ok s, h)
           end
  end.

(** No body in [cards.py] changes the length of the list it iterates over,
    so the length at entry bounds the number of steps. *)
Definition for_enumerate {S} (l : loc) (body : nat → val → S → M S) (s : S) : M S :=
  λ h, for_from (length (contents h l)) 0 l body s h.

Definition for_in {S} (l : loc) (body : val → S → M S) (s : S) : M S :=
  for_enumerate l (λ _, body) s.

(** [for x in xs: s = body(x, s)] over a sequence that is not a list object
    of the store (a constant list, the values of a dict). *)
Fixpoint for_each {A S} (xs : list A) (body : A → S → M S) (s : S) : M S :=
  match xs with
  | [] => pure s
  | x :: xs' => s' <- body x s ;; for_each xs' body s'
  end.

(** [d[k]] on a dict. *)
Definition getitem {V} (d : gmap val V) (k : val) : outcome V :=
  match d !! k with
  | Some v => Ok v
  | None => Raise (KeyError k)
  end.

(** [c[k]] on a [Counter]: a missing key counts as zero. *)
Definition counter_get (c : gmap val Z) (k : val) : Z :=
  default 0 (c !! k).

(** [l.index(x)]: the position of the first element equal to [x]. *)
Fixpoint find_index (x : val) (l : list val) : option nat :=
  match l with
  | [] => None
  | y :: l' => if decide (y = x) then Some O else Datatypes.S <$> find_index x l'
  end.

Definition list_index (l : list val) (x : val) : outcome val :=
  match find_index x l with
  | Some i => Ok (Int (Z.of_nat i))
  | None => Raise (ValueError x)
  end.

(** [l[v]] on a constant list: integers index from the front, negative ones
    from the back. *)
Definition subscript (l : list val) (v : val) : outcome val :=
  match v with
  | Int z =>
      let n := Z.of_nat (length l) in
      let i := if decide (z < 0) then z + n else z in
      if decide (0 ≤ i < n)
      then match l !! Z.to_nat i with
           | Some x => Ok x
           | None => Raise IndexError
           end
      else Raise IndexError
  | Str _ => Raise TypeError
  end.

(** [[x] * n]. *)
Definition replicate_val (x : val) (n : Z) : list val := replicate (Z.to_nat n) x.

(** Python 2 ordering of the values: integers by value, strings by
    character codes, and every integer before every string. *)
Definition cmp_le (a b : val) : bool :=
  match a, b with
  | Int x, Int y => bool_decide (x ≤ y)
  | Int _, Str _ => true
  | Str _, Int _ => false
  | Str s, Str t => String.leb s t
  end.

(** [sorted] is stable: an element goes in front of the first element of
    the sorted rest whose key is not smaller. *)
Fixpoint insert_by_key (k : val) (x : val) (l : list (val * val)) : list (val * val) :=
  match l with
  | [] => [(k, x)]
  | (k', y) :: l' =>
      if cmp_le k k' then (k, x) :: (k', y) :: l'
      else (k', y) :: insert_by_key k x l'
  end.

Fixpoint sort_by_key (l : list (val * val)) : list (val * val) :=
  match l with
  | [] => []
  | (k, x) :: l' => insert_by_key k x (sort_by_key l')
  end.

(** The keys of the elements, computed once each from left to right; the
    first element whose key raises ends the computation. *)
Fixpoint decorate (key : val → outcome val) (xs : list val) : outcome (list (val * val)) :=
  match xs with
  | [] => Ok []
  | x :: xs' =>
      match key x with
      | Ok k =>
          match decorate key xs' with
          | Ok l => Ok ((k, x) :: l)
          | Raise e => Raise e
          end
      | Raise e => Raise e
      end
  end.

(** [sorted(l, key=key)]: a new list object. *)
Definition sorted (l : loc) (key : val → outcome val) : M loc :=
  λ h, match decorate key (contents h l) with
       | Ok kxs => new_list (snd <$> sort_by_key kxs) h
       | Raise e => (Raise e, h)
       end.

(** [assert a == b] on two list objects: equal lengths and equal elements. *)
Definition assert_equal (a b : loc) : M unit :=
  λ h, if decide (contents h a = contents h b)
       then (Ok (), h)
       else (Raise AssertionError, h).

(** [wp m h Q]: run from store [h], [m] ends in an outcome and a store that
    satisfy [Q]. *)
Definition wp {A} (m : M A) (h : heap) (Q : outcome A → heap → Prop) : Prop :=
  Q (m h).1 (m h).2.

End Py.

(** ** The program *)

Module Cards.
Import Py.
Local Open Scope py_scope.

Definition card_faces : list val :=
  [ Str "Ace"; Int 2; Int 3; Int 4; Int 5; Int 6; Int 7; Int 8; Int 9; Int 10;
    Str "Jack"; Str "Queen"; Str "King" ].

(** [enumerate(l)] for a constant list. *)
Definition enumerate {A} (l : list A) : list (nat * A) :=
  zip (seq 0 (length l)) l.

(** The first loop of [sort_with_val_dict], [sort_replace] and
    [bubble_sort]:
      card_values = {}
      for value, face in enumerate(card_faces): card_values[face] = value *)
Definition card_values : gmap val val :=
  foldl (λ cv '(value, face), <[face := Int (Z.of_nat value)]> cv) ∅
        (enumerate card_faces).

(** An [OrderedDict] whose values are list objects: the keys in insertion
    order, each with the reference it holds. *)
Definition ordered_dict := list (val * loc).

Fixpoint od_setitem (d : ordered_dict) (k : val) (l : loc) : ordered_dict :=
  match d with
  | [] => [(k, l)]
  | (k', l') :: d' =>
      if decide (k' = k) then (k', l) :: d' else (k', l') :: od_setitem d' k l
  end.

Fixpoint od_getitem (d : ordered_dict) (k : val) : outcome loc :=
  match d with
  | [] => Raise (KeyError k)
  | (k', l) :: d' => if decide (k' = k) then Ok l else od_getitem d' k
  end.

Definition od_values (d : ordered_dict) : list loc := snd <$> d.

(** Every strategy reads the module variable [deck]: the reference of the
    deck's list object is the argument. *)

Definition sort_with_val_dict (deck : loc) : M loc :=
  let card_values := card_values in
  sorted deck (λ i, getitem card_values i).

Definition sort_with_val_index (deck : loc) : M loc :=
  sorted deck (λ i, list_index card_faces i).

Definition sort_with_dict_counts (deck : loc) : M loc :=
  ret <- new_list [] ;;
  let counts : gmap val Z := foldl (λ counts face, <[face := 0]> counts) ∅ card_faces in
  counts <- for_in deck (λ card counts,
              c <- lift (getitem counts card) ;;
              pure (<[card := c + 1]> counts)) counts ;;
  for_each card_faces (λ face _,
    c <- lift (getitem counts face) ;;
    extend ret (replicate_val face c)) () ;;;
  pure ret.

Definition sort_ordered_dict (deck : loc) : M loc :=
  ret <- new_list [] ;;
  ordered_cards <- for_each card_faces (λ face ordered_cards,
                     bucket <- new_list [] ;;
                     pure (od_setitem ordered_cards face bucket)) [] ;;
  for_in deck (λ card _,
    bucket <- lift (od_getitem ordered_cards card) ;;
    append bucket card) () ;;;
  for_each (od_values ordered_cards) (λ card_set _,
    extend_from ret card_set) () ;;;
  pure ret.

Definition sort_counter (deck : loc) : M loc :=
  ret <- new_list [] ;;
  let counter : gmap val Z := ∅ in
  counter <- for_in deck (λ card counter,
               pure (<[card := counter_get counter card + 1]> counter)) counter ;;
  for_each card_faces (λ face _,
    extend ret (replicate_val face (counter_get counter face))) () ;;;
  pure ret.

Definition sort_replace (deck : loc) : M loc :=
  ret <- copy deck ;;
  let card_values := card_values in
  for_enumerate ret (λ index face _,
    v <- lift (getitem card_values face) ;;
    setitem ret index v) () ;;;
  ret <- sorted ret Ok ;;   (* sorted(ret): the elements are their own keys *)
  for_enumerate ret (λ index value _,
    f <- lift (subscript card_faces value) ;;
    setitem ret index f) () ;;;
  pure ret.

Definition bubble_sort (deck : loc) : M loc :=
  ret <- copy deck ;;
  let card_values := card_values in
  for_enumerate ret (λ index face _,
    v <- lift (getitem card_values face) ;;
    setitem ret index v) () ;;;
  (* manual bubble sort *)
  for_enumerate ret (λ index value _,
    f <- lift (subscript card_faces value) ;;
    setitem ret index f) () ;;;
  pure ret.

(** The seven strategies in the order of the harness. *)
Inductive strategy : Type :=
  | SortWithValDict | SortWithValIndex | SortWithDictCounts
  | SortOrderedDict | SortCounter | SortReplace | BubbleSort.

#[export] Instance strategy_eq_dec : EqDecision strategy.
Proof. solve_decision. Defined.

Definition strategies : list strategy :=
  [ SortWithValDict; SortWithValIndex; SortWithDictCounts;
    SortOrderedDict; SortCounter; SortReplace; BubbleSort ].

Definition body (s : strategy) : loc → M loc :=
  match s with
  | SortWithValDict => sort_with_val_dict
  | SortWithValIndex => sort_with_val_index
  | SortWithDictCounts => sort_with_dict_counts
  | SortOrderedDict => sort_ordered_dict
  | SortCounter => sort_counter
  | SortReplace => sort_replace
  | BubbleSort => bubble_sort
  end.

(** What a call returns: the elements of the list object it hands back, or
    the exception it raises. *)
Definition result_of (r : outcome loc * heap) : outcome (list val) :=
  match r with
  | (Ok l, h) => Ok (contents h l)
  | (Raise e, _) => Raise e
  end.

Definition call (s : strategy) (h : heap) (deck : loc) : outcome (list val) :=
  result_of (body s deck h).

(** The store after the call. *)
Definition store_after (s : strategy) (h : heap) (deck : loc) : heap :=
  snd (body s deck h).

(** The harness's oracle:
      baseline = sorted(deck, key=lambda i: card_faces.index(i)) *)
Definition baseline (deck : loc) : M loc :=
  sorted deck (λ i, list_index card_faces i).

(** One block of the harness, without the clock and the printing:
      assert strategy() == baseline *)
Definition assert_baseline (s : strategy) (deck baseline : loc) : M unit :=
  r <- body s deck ;; assert_equal r baseline.

(** The harness from the baseline on, cut after the blocks of the first [n]
    strategies. *)
Definition harness_upto (n : nat) (deck : loc) : M unit :=
  baseline <- baseline deck ;;
  for_each (take n strategies) (λ s _, assert_baseline s deck baseline) ().

Definition harness (deck : loc) : M unit := harness_upto (length strategies) deck.

(** [random.choice(seq)] is [seq[int(random() * len(seq))]].  The generator
    of floating-point numbers is not modelled: the number
    [int(random() * len(seq))] that a call draws is an input. *)
Definition choice (seq : list val) (draw : nat) : outcome val :=
  subscript seq (Int (Z.of_nat draw)).

(** The elements of
      [random.choice(card_faces) for i in xrange(N)]
    for the [N] numbers drawn, in the order of the calls. *)
Fixpoint draw_cards (draws : list nat) : outcome (list val) :=
  match draws with
  | [] => Ok []
  | draw :: draws' =>
      match choice card_faces draw with
      | Ok card =>
          match draw_cards draws' with
          | Ok cards => Ok (card :: cards)
          | Raise e => Raise e
          end
      | Raise e => Raise e
      end
  end.

(** deck = [random.choice(card_faces) for i in xrange(N)]
    ([N] is 1000000 in the script, the number of draws here). *)
Definition make_deck (draws : list nat) : M loc :=
  cards <- lift (draw_cards draws) ;; new_list cards.

(** The statements of the script after the definitions: the deck is built,
    then the harness runs on it. *)
Definition script (draws : list nat) : M unit :=
  deck <- make_deck draws ;; harness deck.

Definition Ace := Str "Ace".
Definition Jack := Str "Jack".
Definition Queen := Str "Queen".
Definition King := Str "King".

(** *** The notions in which the properties are stated *)

(** The reference of the list object a call hands back. *)
Definition returned (s : strategy) (h : heap) (deck : loc) : outcome loc :=
  (body s deck h).1.

(** A deck as the harness builds it: every element is one of the faces. *)
Definition valid_deck (d : list val) : Prop := Forall (λ c, c ∈ card_faces) d.

(** The position of a face in [card_faces]. *)
Definition rank (c : val) : option nat := find_index c card_faces.

(** [a] does not come after [b] in the order of [card_faces]. *)
Definition rank_le (a b : val) : Prop :=
  match rank a, rank b with
  | Some i, Some j => (i ≤ j)%nat
  | _, _ => False
  end.

#[export] Instance rank_le_dec a b : Decision (rank_le a b).
Proof. unfold rank_le. destruct (rank a), (rank b); apply _. Defined.

(** Non-decreasing under the position order. *)
Definition rank_sorted (l : list val) : Prop := Sorted rank_le l.

(** The first element of a deck that is not a face, if there is one. *)
Definition first_invalid (d : list val) : option val :=
  snd <$> list_find (λ c, c ∉ card_faces) d.

(** The sort key of a face, as both key functions compute it. *)
Definition rank_key (c : val) : val := Int (Z.of_nat (default O (rank c))).

(** A deck sorted by the builtin sort on the positions. *)
Definition by_rank (d : list val) : list val :=
  snd <$> sort_by_key ((λ c, (rank_key c, c)) <$> d).

(** How often [f] occurs in [d]. *)
Definition count (f : val) (d : list val) : nat :=
  length (filter (λ c, c = f) d).

(** A deck rebuilt from its counts, face by face. *)
Definition by_counts (d : list val) : list val :=
  card_faces ≫= (λ f, replicate (count f d) f).

(** The common shape of the answers of the strategies that look every card
    up: the lookup error of the first card that is not a face, or else the
    sorted deck. *)
Definition checked (err : val → exn) (sort : list val → list val)
    (d : list val) : outcome (list val) :=
  match first_invalid d with
  | Some x => Raise (err x)
  | None => Ok (sort d)
  end.

(** The buckets of [sort_ordered_dict] when the cards [p] have been dealt
    into them: one list per face, in the order of [card_faces]. *)
Definition buckets (p : list val) : list (list val) :=
  (λ f, filter (λ c, c = f) p) <$> card_faces.

(** The face a position stands for (any other value stands for itself). *)
Definition face_of (v : val) : val :=
  match subscript card_faces v with
  | Ok c => c
  | Raise _ => v
  end.

(** A deck turned into positions, sorted by the builtin sort, and turned
    back into faces. *)
Definition by_replace (d : list val) : list val :=
  face_of <$> (snd <$> sort_by_key ((λ k, (k, k)) <$> (rank_key <$> d))).

(** The state in which a call started from [h] has to end to give the
    answer [expected]: the objects of [h] are as they were, and the list
    handed back is an object of the store that was not in [h]. *)
Definition post (h : heap) (expected : outcome (list val))
    (o : outcome loc) (h' : heap) : Prop :=
  h `prefix_of` h' ∧ result_of (o, h') = expected ∧
  ∀ r, o = Ok r → (length h ≤ r < length h')%nat.

(** What a strategy answers to a deck: [expected d], whatever the store and
    wherever the deck lies in it. *)
Definition answers (s : strategy) (expected : list val → outcome (list val)) : Prop :=
  ∀ (h : heap) (deck : loc) (d : list val),
    h !! deck = Some d →
    post h (expected d) (returned s h deck) (store_after s h deck).

(** The answer of each strategy, as a function of the deck. *)
Definition answer (s : strategy) : list val → outcome (list val) :=
  match s with
  | SortWithValDict => checked KeyError by_rank
  | SortWithValIndex => checked ValueError by_rank
  | SortWithDictCounts => checked KeyError by_counts
  | SortOrderedDict => checked KeyError by_counts
  | SortCounter => λ d, Ok (by_counts d)
  | SortReplace => checked KeyError by_replace
  | BubbleSort => checked KeyError (λ d, d)
  end.


(** The order of the builtin sort on decorated elements that satisfy [wf]. *)
Definition key_ord (wf : val * val → Prop) (p q : val * val) : Prop :=
  wf p ∧ wf q ∧ cmp_le p.1 q.1.

End Cards.

(** ** Reasoning about computations on the store *)

Module Hoare.
Import Py.
Local Open Scope py_scope.

Lemma wp_mono {A} (m : M A) h (P Q : outcome A → heap → Prop) :
  wp m h P → (∀ o h', P o h' → Q o h') → wp m h Q.
Proof. unfold wp. auto. Qed.

Lemma wp_pure {A} (a : A) h Q : Q (Ok a) h → wp (pure a) h Q.
Proof. done. Qed.

Lemma wp_lift {A} (o : outcome A) h Q : Q o h → wp (lift o) h Q.
Proof. done. Qed.

Lemma wp_bind {A B} (m : M A) (k : A → M B) h Q :
  wp m h (λ o h', match o with
                  | Ok a => wp (k a) h' Q
                  | Raise e => Q (Raise e) h'
                  end) →
  wp (bind m k) h Q.
Proof. unfold wp, bind. by destruct (m h) as [[a|e] h']. Qed.

Lemma wp_new_list xs h Q : Q (Ok (length h)) (h ++ [xs]) → wp (new_list xs) h Q.
Proof. done. Qed.

Lemma wp_extend l xs h Q :
  Q (Ok ()) (<[l := contents h l ++ xs]> h) → wp (extend l xs) h Q.
Proof. done. Qed.

Lemma wp_append l x h Q :
  Q (Ok ()) (<[l := contents h l ++ [x]]> h) → wp (append l x) h Q.
Proof. done. Qed.

Lemma wp_setitem l i v xs h Q :
  h !! l = Some xs → (i < length xs)%nat →
  Q (Ok ()) (<[l := <[i := v]> xs]> h) → wp (setitem l i v) h Q.
Proof.
  intros Hl Hi HQ. unfold wp, setitem. rewrite Hl.
  by rewrite decide_True.
Qed.

(** The loop rule for [for ... in enumerate(l)]: [I j s h] holds when the
    iterator stands at index [j]. *)
Lemma wp_for_from {S} (I : nat → S → heap → Prop) (Q : outcome S → heap → Prop)
    l (body : nat → val → S → M S) n :
  ∀ i s h,
    I i s h →
    (∀ j s h, (i ≤ j < i + n)%nat → I j s h →
       ∃ x, contents h l !! j = Some x ∧
            wp (body j x s) h (λ o h', match o with
                                       | Ok s' => I (Datatypes.S j) s' h'
                                       | Raise e => Q (Raise e) h'
                                       end)) →
    (∀ s h, I (i + n)%nat s h → Q (Ok s) h) →
    wp (for_from n i l body s) h Q.
Proof.
  induction n as [|n IH]; intros i s h HI Hstep Hend.
  - apply wp_pure, Hend. by rewrite Nat.add_0_r.
  - destruct (Hstep i s h) as (x & Hx & Hbody); [lia|done|].
    unfold wp. simpl. rewrite Hx. apply wp_bind.
    eapply wp_mono; [exact Hbody|].
    intros [s'|e] h' Ho; [|done].
    apply IH; [done| |].
    + intros j s1 h1 Hj. apply Hstep. lia.
    + intros s1 h1. replace (Datatypes.S i + n)%nat with (i + Datatypes.S n)%nat by lia.
      apply Hend.
Qed.

Lemma wp_for_enumerate {S} (I : nat → S → heap → Prop) (Q : outcome S → heap → Prop)
    l (body : nat → val → S → M S) s h :
  I O s h →
  (∀ j s h', (j < length (contents h l))%nat → I j s h' →
     ∃ x, contents h' l !! j = Some x ∧
          wp (body j x s) h' (λ o h'', match o with
                                       | Ok s' => I (Datatypes.S j) s' h''
                                       | Raise e => Q (Raise e) h''
                                       end)) →
  (∀ s h', I (length (contents h l)) s h' → Q (Ok s) h') →
  wp (for_enumerate l body s) h Q.
Proof.
  intros HI Hstep Hend.
  change (wp (for_from (length (contents h l)) 0 l body s) h Q).
  apply (wp_for_from I); [done| |done].
  intros j s1 h1 Hj. apply Hstep. lia.
Qed.

(** The loop rule for a constant sequence: [I pre s h] holds when the
    elements [pre] have been visited. *)
Lemma wp_for_each {A S} (I : list A → S → heap → Prop) (Q : outcome S → heap → Prop)
    (body : A → S → M S) xs :
  ∀ pre s h,
    I pre s h →
    (∀ pre' x s h, (∃ post, pre ++ xs = pre' ++ x :: post) → I pre' s h →
       wp (body x s) h (λ o h', match o with
                                | Ok s' => I (pre' ++ [x]) s' h'
                                | Raise e => Q (Raise e) h'
                                end)) →
    (∀ s h, I (pre ++ xs) s h → Q (Ok s) h) →
    wp (for_each xs body s) h Q.
Proof.
  induction xs as [|x xs IH]; intros pre s h HI Hstep Hend.
  - apply wp_pure, Hend. by rewrite app_nil_r.
  - simpl. apply wp_bind.
    eapply wp_mono; [apply (Hstep pre x s h); [by exists xs|done]|].
    intros [s'|e] h' Ho; [|done].
    apply (IH (pre ++ [x])); [done| |].
    + intros pre' y s1 h1 [post Hpost]. apply Hstep.
      exists post. by rewrite <- Hpost, <- app_assoc.
    + intros s1 h1. rewrite <- app_assoc. apply Hend.
Qed.

Lemma contents_app_new (h : heap) xs : contents (h ++ [xs]) (length h) = xs.
Proof. unfold contents. by rewrite list_lookup_middle. Qed.

Lemma contents_lookup (h : heap) l xs : h !! l = Some xs → contents h l = xs.
Proof. unfold contents. by intros ->. Qed.

Lemma contents_app_old (h k : heap) l xs :
  h !! l = Some xs → contents (h ++ k) l = xs.
Proof. intros Hl. apply contents_lookup. by apply lookup_app_l_Some. Qed.

Lemma insert_app_new (h : heap) xs ys :
  <[length h := ys]> (h ++ [xs]) = h ++ [ys].
Proof. rewrite insert_app_r_alt by lia. by rewrite Nat.sub_diag. Qed.

Lemma wp_extend_from l l' (h : heap) Q :
  Q (Ok ()) (<[l := contents h l ++ contents h l']> h) → wp (extend_from l l') h Q.
Proof. done. Qed.

Lemma wp_copy l xs (h : heap) Q :
  h !! l = Some xs → Q (Ok (length h)) (h ++ [xs]) → wp (copy l) h Q.
Proof. intros Hl HQ. unfold wp, copy. by rewrite (contents_lookup _ _ _ Hl). Qed.

End Hoare.

(** ** Facts about the rank reference and the lookups *)

Module Facts.
Import Py Cards.

Lemma find_index_Some x l i : find_index x l = Some i → l !! i = Some x.
Proof.
  revert i. induction l as [|y l IH]; intros i; simpl; [done|].
  case_decide as Hy.
  - intros [= <-]. by subst.
  - destruct (find_index x l) as [j|]; [|done].
    intros [= <-]. by apply IH.
Qed.

Lemma find_index_None x l : find_index x l = None ↔ x ∉ l.
Proof.
  induction l as [|y l IH]; simpl.
  - split; [intros _; apply not_elem_of_nil|done].
  - case_decide as Hy.
    + subst. split; [done|]. intros []. left.
    + rewrite not_elem_of_cons, <- IH.
      destruct (find_index x l); simpl.
      * split; [done|]. by intros [_ ?].
      * split; [|done]. by split; [congruence|].
Qed.

Lemma find_index_is_Some x l : x ∈ l → is_Some (find_index x l).
Proof.
  intros Hx. destruct (find_index x l) eqn:E; [by eexists|].
  by apply find_index_None in E.
Qed.

Lemma find_index_lt x l i : find_index x l = Some i → (i < length l)%nat.
Proof. intros H. apply find_index_Some in H. by eapply lookup_lt_Some. Qed.

Lemma find_index_NoDup x l i :
  NoDup l → l !! i = Some x → find_index x l = Some i.
Proof.
  intros Hnd Hi.
  destruct (find_index_is_Some x l) as [j Hj]; [by eapply list_elem_of_lookup_2|].
  rewrite Hj. f_equal. eapply NoDup_lookup; [done| |done].
  by apply find_index_Some.
Qed.

Lemma card_faces_NoDup : NoDup card_faces.
Proof. apply (bool_decide_unpack (NoDup card_faces)). by vm_compute. Qed.

Lemma rank_Some c i : rank c = Some i → card_faces !! i = Some c.
Proof. apply find_index_Some. Qed.

Lemma rank_is_Some c : c ∈ card_faces → is_Some (rank c).
Proof. apply find_index_is_Some. Qed.

Lemma rank_None c : rank c = None ↔ c ∉ card_faces.
Proof. apply find_index_None. Qed.

(** The mapping from faces to positions is one-to-one. *)
Lemma rank_inj a b i : rank a = Some i → rank b = Some i → a = b.
Proof.
  intros Ha%rank_Some Hb%rank_Some. congruence.
Qed.

(** The dict built from [enumerate(l)] answers like [l.index]. *)
Lemma enumerate_dict_lookup (l : list val) k (m : gmap val val) c :
  NoDup l →
  foldl (λ cv '(value, face), <[face := Int (Z.of_nat value)]> cv) m
        (zip (seq k (length l)) l) !! c
  = match find_index c l with
    | Some i => Some (Int (Z.of_nat (k + i)))
    | None => m !! c
    end.
Proof.
  revert k m. induction l as [|y l IH]; intros k m Hnd; simpl; [done|].
  apply NoDup_cons in Hnd as [Hy Hnd].
  rewrite IH by done. case_decide as Hyc.
  - subst. apply find_index_None in Hy. rewrite Hy.
    rewrite Nat.add_0_r. apply lookup_insert_eq.
  - destruct (find_index c l) as [i|]; simpl.
    + do 3 f_equal. lia.
    + by apply lookup_insert_ne.
Qed.

Lemma card_values_lookup c :
  card_values !! c = (λ i, Int (Z.of_nat i)) <$> rank c.
Proof.
  unfold card_values, enumerate, rank.
  rewrite (enumerate_dict_lookup card_faces 0 ∅ c card_faces_NoDup).
  by destruct (find_index c card_faces).
Qed.

Lemma not_not_face (c : val) : ¬ (c ∉ card_faces) → c ∈ card_faces.
Proof. intros H. by destruct (decide (c ∈ card_faces)); [|destruct H]. Qed.

(** Both key functions on a whole deck. *)
Lemma decorate_keys key (err : val → exn) d :
  (∀ c i, rank c = Some i → key c = Ok (Int (Z.of_nat i))) →
  (∀ c, rank c = None → key c = Raise (err c)) →
  decorate key d
  = match first_invalid d with
    | Some x => Raise (err x)
    | None => Ok ((λ c, (rank_key c, c)) <$> d)
    end.
Proof.
  intros Hok Herr. unfold first_invalid.
  induction d as [|c d IH]; simpl; [done|].
  case_decide as Hc.
  - apply rank_None in Hc. by rewrite (Herr c Hc).
  - destruct (rank_is_Some c) as [i Hi]; [done|].
    rewrite (Hok c i Hi), IH.
    destruct (list_find _ d) as [[j x]|]; simpl; [done|].
    unfold rank_key. by rewrite Hi.
Qed.

Lemma getitem_card_values_Some c i :
  rank c = Some i → getitem card_values c = Ok (Int (Z.of_nat i)).
Proof. intros H. unfold getitem. by rewrite card_values_lookup, H. Qed.

Lemma getitem_card_values_None c :
  rank c = None → getitem card_values c = Raise (KeyError c).
Proof. intros H. unfold getitem. by rewrite card_values_lookup, H. Qed.

Lemma list_index_Some c i :
  rank c = Some i → list_index card_faces c = Ok (Int (Z.of_nat i)).
Proof. unfold rank, list_index. by intros ->. Qed.

Lemma list_index_None c :
  rank c = None → list_index card_faces c = Raise (ValueError c).
Proof. unfold rank, list_index. by intros ->. Qed.

Lemma first_invalid_None d : first_invalid d = None ↔ valid_deck d.
Proof.
  unfold first_invalid, valid_deck.
  rewrite fmap_None, list_find_None.
  apply Forall_iff. intros c. split; [apply not_not_face|auto].
Qed.

Lemma first_invalid_Some d x :
  first_invalid d = Some x →
  ∃ pre post, d = pre ++ x :: post ∧ valid_deck pre ∧ x ∉ card_faces.
Proof.
  unfold first_invalid. intros H.
  apply fmap_Some in H as ([i y] & Hf & ->). simpl.
  apply list_find_Some in Hf as (Hi & Hy & Hpre).
  exists (take i d), (drop (Datatypes.S i) d). split_and!; [|  |done].
  - by rewrite take_drop_middle.
  - apply Forall_forall. intros c Hc.
    apply list_elem_of_lookup in Hc as [j Hj].
    pose proof (lookup_lt_Some _ _ _ Hj) as Hlt.
    rewrite length_take in Hlt.
    rewrite lookup_take_lt in Hj by lia.
    apply not_not_face. apply (Hpre j); [done|lia].
Qed.

Lemma first_invalid_app pre x post :
  valid_deck pre → x ∉ card_faces → first_invalid (pre ++ x :: post) = Some x.
Proof.
  intros Hpre Hx. unfold first_invalid.
  induction Hpre as [|c pre Hc _ IH]; simpl.
  - by rewrite decide_True.
  - rewrite decide_False by auto.
    by destruct (list_find _ (pre ++ x :: post)) as [[? ?]|].
Qed.

(** The zeroed counters of [sort_with_dict_counts]. *)
Lemma zero_counts_lookup (l : list val) (m : gmap val Z) c :
  foldl (λ counts face, <[face := 0]> counts) m l !! c
  = if decide (c ∈ l) then Some 0 else m !! c.
Proof.
  revert m. induction l as [|y l IH]; intros m; cbn [foldl].
  - rewrite decide_False; [done|apply not_elem_of_nil].
  - rewrite IH. destruct (decide (c ∈ l)) as [Hc|Hc].
    + rewrite decide_True; [done|by right].
    + rewrite lookup_insert. destruct (decide (y = c)) as [->|Hy].
      * rewrite decide_True; [done|left].
      * rewrite decide_False; [done|]. rewrite not_elem_of_cons. by split; [congruence|].
Qed.

Lemma take_drop_lookup {A} (l : list A) j x :
  l !! j = Some x → l = take j l ++ x :: drop (Datatypes.S j) l.
Proof. intros H. by rewrite take_drop_middle. Qed.

(** The mapping to positions followed by the unmapping is the identity on
    the faces. *)
Lemma subscript_rank_key c :
  c ∈ card_faces → subscript card_faces (rank_key c) = Ok c.
Proof.
  intros Hc. destruct (rank_is_Some c Hc) as [i Hi].
  pose proof (find_index_lt _ _ _ Hi) as Hlt.
  unfold rank_key, subscript. rewrite Hi. simpl default.
  destruct (decide (Z.of_nat i < 0)) as [?|_]; [lia|].
  rewrite decide_True by lia.
  by rewrite Nat2Z.id, (rank_Some c i Hi).
Qed.

Lemma face_of_rank_key c : c ∈ card_faces → face_of (rank_key c) = c.
Proof. intros Hc. unfold face_of. by rewrite subscript_rank_key. Qed.

Lemma insert_by_key_perm k x l : insert_by_key k x l ≡ₚ (k, x) :: l.
Proof.
  induction l as [|[k' y] l IH]; simpl; [done|].
  destruct (cmp_le k k'); [done|]. by rewrite IH, Permutation_swap.
Qed.

Lemma sort_by_key_perm l : sort_by_key l ≡ₚ l.
Proof.
  induction l as [|[k x] l IH]; simpl; [done|].
  by rewrite insert_by_key_perm, IH.
Qed.

Lemma decorate_Ok xs : decorate Ok xs = Ok ((λ k, (k, k)) <$> xs).
Proof. induction xs as [|x xs IH]; simpl; [done|]. by rewrite IH. Qed.

Lemma getitem_card_values_Ok c k :
  getitem card_values c = Ok k → c ∈ card_faces ∧ k = rank_key c.
Proof.
  unfold getitem, rank_key. rewrite card_values_lookup.
  destruct (rank c) as [i|] eqn:Hi; simpl; [|done].
  intros [= <-]. split; [|done]. apply rank_Some in Hi.
  by eapply list_elem_of_lookup_2.
Qed.

Lemma getitem_card_values_Raise c e :
  getitem card_values c = Raise e → (c ∉ card_faces) ∧ e = KeyError c.
Proof.
  unfold getitem. rewrite card_values_lookup.
  destruct (rank c) as [i|] eqn:Hi; simpl; [done|].
  intros [= <-]. split; [|done]. by apply rank_None.
Qed.

(** A list overwritten with a partial function that succeeded everywhere. *)
Lemma Forall2_fmap_total (g : val → outcome val) (f : val → val) xs ys :
  Forall2 (λ x y, g x = Ok y) xs ys →
  (∀ x y, x ∈ xs → g x = Ok y → y = f x) →
  ys = f <$> xs.
Proof.
  induction 1 as [|x y xs ys Hxy _ IH]; intros Hf; simpl; [done|].
  f_equal.
  - apply Hf; [left|done].
  - apply IH. intros x' y' Hx'. apply Hf. by right.
Qed.

Lemma sorted_keys_perm ks :
  (snd <$> sort_by_key ((λ k : val, (k, k)) <$> ks)) ≡ₚ ks.
Proof.
  rewrite sort_by_key_perm, <- list_fmap_compose.
  by rewrite list_fmap_id.
Qed.

Lemma od_setitem_fresh (d : ordered_dict) k l :
  k ∉ d.*1 → od_setitem d k l = d ++ [(k, l)].
Proof.
  induction d as [|[k' l'] d IH]; simpl; [done|].
  intros [Hk Hd]%not_elem_of_cons.
  rewrite decide_False by done. by rewrite IH.
Qed.

Lemma od_getitem_zip (l : list val) b c :
  od_getitem (zip l (seq b (length l))) c
  = match find_index c l with
    | Some i => Ok (b + i)%nat
    | None => Raise (KeyError c)
    end.
Proof.
  revert b. induction l as [|y l IH]; intros b; simpl; [done|].
  case_decide.
  - by rewrite Nat.add_0_r.
  - rewrite IH. destruct (find_index c l); simpl; [|done].
    f_equal. lia.
Qed.

Lemma filter_eq_replicate f (d : list val) :
  filter (λ c, c = f) d = replicate (count f d) f.
Proof.
  unfold count. induction d as [|c d IH]; [done|].
  rewrite filter_cons. case_decide; [|done].
  subst. simpl. by rewrite <- IH.
Qed.

Lemma concat_buckets d : concat (buckets d) = by_counts d.
Proof.
  unfold buckets, by_counts.
  induction card_faces as [|f l IH]; [done|].
  rewrite fmap_cons. simpl. by rewrite IH, filter_eq_replicate.
Qed.

(** Dealing one more card [x] changes the bucket of [x] only. *)
Lemma buckets_snoc p x i :
  card_faces !! i = Some x →
  <[i := filter (λ c, c = x) p ++ [x]]> (buckets p) = buckets (p ++ [x]).
Proof.
  intros Hi. unfold buckets.
  apply list_eq. intros k.
  destruct (decide (k = i)) as [->|Hk].
  - rewrite list_lookup_insert_eq
      by (rewrite length_fmap; by eapply lookup_lt_Some).
    rewrite list_lookup_fmap, Hi. simpl.
    rewrite filter_app, filter_cons, filter_nil. by rewrite decide_True.
  - rewrite list_lookup_insert_ne by done.
    rewrite !list_lookup_fmap.
    destruct (card_faces !! k) as [f|] eqn:Hf; [|done]. simpl. f_equal.
    rewrite filter_app, filter_cons, filter_nil.
    rewrite decide_False; [by rewrite app_nil_r|].
    intros ->. apply Hk. by eapply NoDup_lookup; [apply card_faces_NoDup|..].
Qed.

Lemma buckets_lookup p x i :
  card_faces !! i = Some x → buckets p !! i = Some (filter (λ c, c = x) p).
Proof. intros Hi. unfold buckets. by rewrite list_lookup_fmap, Hi. Qed.

Lemma buckets_nil : buckets [] = replicate (length card_faces) [].
Proof. unfold buckets. by apply const_fmap. Qed.

Lemma count_snoc f l x :
  count f (l ++ [x]) = (count f l + if decide (x = f) then 1 else 0)%nat.
Proof.
  unfold count. rewrite filter_app, length_app. f_equal.
  rewrite filter_cons, filter_nil. by case_decide.
Qed.

Lemma replicate_val_of_nat c n : replicate_val c (Z.of_nat n) = replicate n c.
Proof. unfold replicate_val. by rewrite Nat2Z.id. Qed.

Lemma bind_snoc {A B} (f : A → list B) l x : (l ++ [x]) ≫= f = (l ≫= f) ++ f x.
Proof. rewrite bind_app. simpl. by rewrite app_nil_r. Qed.

End Facts.

(** ** What each strategy computes *)

Module Strategies.
Import Py Cards Hoare Facts.
Local Open Scope py_scope.

Lemma answers_wp s expected :
  (∀ (h : heap) deck d, h !! deck = Some d →
     wp (body s deck) h (post h (expected d))) →
  answers s expected.
Proof. intros H h deck d Hd. apply (H h deck d Hd). Qed.

Lemma post_return (h h' : heap) r expected :
  h `prefix_of` h' → (length h ≤ r < length h')%nat →
  expected = Ok (contents h' r) →
  post h expected (Ok r) h'.
Proof. intros Hp Hr ->. split_and!; [done..|]. by intros ? [= <-]. Qed.

Ltac new_object := rewrite !length_app; simpl; lia.

Lemma post_raise (h h' : heap) e expected :
  h `prefix_of` h' → expected = Raise e → post h expected (Raise e) h'.
Proof. by intros Hp ->. Qed.

Lemma sorted_keys_answer key (err : val → exn) (h : heap) deck d :
  (∀ c i, rank c = Some i → key c = Ok (Int (Z.of_nat i))) →
  (∀ c, rank c = None → key c = Raise (err c)) →
  h !! deck = Some d →
  wp (sorted deck key) h (post h (checked err by_rank d)).
Proof.
  intros Hok Herr Hd. unfold wp, sorted, checked.
  rewrite (contents_lookup _ _ _ Hd), (decorate_keys key err d Hok Herr).
  destruct (first_invalid d); simpl.
  - by apply post_raise.
  - apply post_return; [by apply prefix_app_r|new_object|].
    by rewrite contents_app_new.
Qed.

(** [sorted] with either key function: all the keys are computed before
    the new list is made. *)
Lemma sorted_keys_run key (err : val → exn) (h : heap) deck d :
  (∀ c i, rank c = Some i → key c = Ok (Int (Z.of_nat i))) →
  (∀ c, rank c = None → key c = Raise (err c)) →
  h !! deck = Some d →
  sorted deck key h
  = match first_invalid d with
    | Some x => (Raise (err x), h)
    | None => (Ok (length h), h ++ [by_rank d])
    end.
Proof.
  intros Hok Herr Hd. unfold sorted.
  rewrite (contents_lookup _ _ _ Hd), (decorate_keys key err d Hok Herr).
  by destruct (first_invalid d).
Qed.

Lemma sort_with_val_dict_answers :
  answers SortWithValDict (checked KeyError by_rank).
Proof.
  apply answers_wp. intros h deck d Hd.
  apply (sorted_keys_answer _ KeyError); [|  |done].
  - apply getitem_card_values_Some.
  - apply getitem_card_values_None.
Qed.

Lemma sort_with_val_index_answers :
  answers SortWithValIndex (checked ValueError by_rank).
Proof.
  apply answers_wp. intros h deck d Hd.
  apply (sorted_keys_answer _ ValueError); [|  |done].
  - apply list_index_Some.
  - apply list_index_None.
Qed.

(** The emitting loop of the two counting strategies. *)
Lemma emit_counts_wp (h : heap) (emit : val → unit → M unit) d
    (Q : outcome unit → heap → Prop) :
  (∀ f, f ∈ card_faces → emit f () = extend (length h) (replicate (count f d) f)) →
  Q (Ok ()) (h ++ [by_counts d]) →
  wp (for_each card_faces emit ()) (h ++ [[]]) Q.
Proof.
  intros Hemit HQ.
  apply (wp_for_each
    (λ pre _ h', h' = h ++ [pre ≫= (λ f, replicate (count f d) f)]) _ _ _ []);
    [done|  |].
  - intros pre f [] h' [post Hpost] ->. simpl in Hpost.
    rewrite Hemit by (rewrite Hpost; set_solver).
    apply wp_extend.
    by rewrite contents_app_new, insert_app_new, bind_snoc.
  - by intros [] h' ->.
Qed.

Lemma sort_counter_wp (h : heap) deck d (Q : outcome loc → heap → Prop) :
  h !! deck = Some d →
  Q (Ok (length h)) (h ++ [by_counts d]) →
  wp (sort_counter deck) h Q.
Proof.
  intros Hd HQ. unfold sort_counter.
  apply wp_bind, wp_new_list.
  apply wp_bind.
  apply (wp_for_enumerate
    (λ j counter h', h' = h ++ [[]] ∧
       ∀ f, counter_get counter f = Z.of_nat (count f (take j d)))).
  - split; [done|]. intros f. by rewrite take_0.
  - rewrite (contents_app_old _ _ _ _ Hd). intros j counter h' Hj [-> Hc].
    rewrite (contents_app_old _ _ _ _ Hd).
    destruct (lookup_lt_is_Some_2 d j Hj) as [x Hx].
    exists x. split; [done|]. apply wp_pure. split; [done|]. intros f.
    rewrite (take_S_r _ _ _ Hx), count_snoc. unfold counter_get.
    rewrite lookup_insert. case_decide; simpl.
    + subst. change (default 0 (counter !! f)) with (counter_get counter f).
      rewrite Hc. lia.
    + change (default 0 (counter !! f)) with (counter_get counter f).
      rewrite Hc. lia.
  - rewrite (contents_app_old _ _ _ _ Hd). intros counter h' [-> Hc].
    rewrite firstn_all in Hc.
    apply wp_bind.
    apply (emit_counts_wp h _ d).
    + intros f _. by rewrite Hc, replicate_val_of_nat.
    + by apply wp_pure.
Qed.

Lemma sort_counter_answers : answers SortCounter (λ d, Ok (by_counts d)).
Proof.
  apply answers_wp. intros h deck d Hd.
  apply (sort_counter_wp h deck d _ Hd).
  apply post_return; [by apply prefix_app_r|new_object|].
  by rewrite contents_app_new.
Qed.

Lemma checked_invalid err sort d j x :
  valid_deck (take j d) → d !! j = Some x → x ∉ card_faces →
  checked err sort d = Raise (err x).
Proof.
  intros Hpre Hx Hinv. unfold checked.
  rewrite (take_drop_lookup d j x Hx). by rewrite first_invalid_app.
Qed.

Lemma checked_valid err sort d :
  valid_deck d → checked err sort d = Ok (sort d).
Proof. intros H%first_invalid_None. unfold checked. by rewrite H. Qed.

Lemma valid_deck_snoc d x : valid_deck d → x ∈ card_faces → valid_deck (d ++ [x]).
Proof. intros Hd Hx. apply Forall_app. split; [done|]. by apply Forall_singleton. Qed.

Lemma sort_with_dict_counts_wp (h : heap) deck d (Q : outcome loc → heap → Prop) :
  h !! deck = Some d →
  (valid_deck d → Q (Ok (length h)) (h ++ [by_counts d])) →
  (∀ e, checked KeyError by_counts d = Raise e → Q (Raise e) (h ++ [[]])) →
  wp (sort_with_dict_counts deck) h Q.
Proof.
  intros Hd Hok Herr. unfold sort_with_dict_counts.
  apply wp_bind, wp_new_list.
  apply wp_bind.
  apply (wp_for_enumerate
    (λ j (counts : gmap val Z) h', h' = h ++ [[]] ∧ valid_deck (take j d) ∧
       ∀ f, counts !! f = if decide (f ∈ card_faces)
                          then Some (Z.of_nat (count f (take j d))) else None)).
  - split_and!; [done|by apply Forall_nil|].
    intros f. rewrite zero_counts_lookup, take_0. by case_decide.
  - rewrite (contents_app_old _ _ _ _ Hd). intros j counts h' Hj (-> & Hv & Hc).
    rewrite (contents_app_old _ _ _ _ Hd).
    destruct (lookup_lt_is_Some_2 d j Hj) as [x Hx].
    exists x. split; [done|]. apply wp_bind, wp_lift.
    unfold getitem. rewrite Hc. case_decide as Hface.
    + apply wp_pure. rewrite (take_S_r _ _ _ Hx).
      split_and!; [done|by apply valid_deck_snoc|]. intros f.
      rewrite count_snoc, lookup_insert. case_decide as Hxf.
      * subst f. rewrite decide_True by done. f_equal. lia.
      * rewrite Hc, Nat.add_0_r. done.
    + apply Herr. by eapply checked_invalid.
  - rewrite (contents_app_old _ _ _ _ Hd). intros counts h' (-> & Hv & Hc).
    rewrite firstn_all in Hv, Hc.
    apply wp_bind.
    apply (emit_counts_wp h _ d).
    + intros f Hf. unfold getitem. rewrite Hc, decide_True by done.
      by rewrite <- replicate_val_of_nat.
    + by apply wp_pure, Hok.
Qed.

Lemma sort_with_dict_counts_answers :
  answers SortWithDictCounts (checked KeyError by_counts).
Proof.
  apply answers_wp. intros h deck d Hd.
  apply (sort_with_dict_counts_wp h deck d _ Hd).
  - intros Hv. apply post_return; [by apply prefix_app_r|new_object|].
    by rewrite checked_valid, contents_app_new.
  - intros e He. by apply post_raise; [apply prefix_app_r|].
Qed.

(** The two in-place loops of [sort_replace] and [bubble_sort]: the list
    object allocated last is overwritten element by element with [g]. *)
Lemma map_in_place_wp (h : heap) xs (g : val → outcome val)
    (Q : outcome unit → heap → Prop) :
  (∀ ys, Forall2 (λ x y, g x = Ok y) xs ys → Q (Ok ()) (h ++ [ys])) →
  (∀ j x e zs, xs !! j = Some x → g x = Raise e →
     Forall (λ x, ∃ y, g x = Ok y) (take j xs) → Q (Raise e) (h ++ [zs])) →
  wp (for_enumerate (length h) (λ index x _,
        v <- lift (g x) ;; setitem (length h) index v) ())
     (h ++ [xs]) Q.
Proof.
  intros Hok Herr.
  apply (wp_for_enumerate
    (λ j _ h', ∃ ys, Forall2 (λ x y, g x = Ok y) (take j xs) ys ∧
                     h' = h ++ [ys ++ drop j xs])).
  - exists []. rewrite take_0, drop_0. by split; [constructor|].
  - rewrite contents_app_new. intros j [] h' Hj (ys & Hys & ->).
    rewrite contents_app_new.
    pose proof (Forall2_length _ _ _ Hys) as Hlen.
    rewrite length_take in Hlen.
    destruct (lookup_lt_is_Some_2 xs j Hj) as [x Hx].
    assert (Hread : (ys ++ drop j xs) !! j = Some x).
    { rewrite lookup_app_r by lia. rewrite lookup_drop.
      by replace (j + (j - length ys))%nat with j by lia. }
    exists x. split; [done|].
    apply wp_bind, wp_lift. destruct (g x) as [y|e] eqn:Hg.
    + eapply wp_setitem.
      * apply list_lookup_middle. done.
      * by eapply lookup_lt_Some.
      * exists (ys ++ [y]). split.
        -- rewrite (take_S_r _ _ _ Hx). apply Forall2_app; [done|].
           by constructor.
        -- rewrite insert_app_new. do 2 f_equal.
           rewrite insert_app_r_alt by lia.
           replace (j - length ys)%nat with O by lia.
           rewrite (drop_S _ _ _ Hx). simpl. by rewrite <- app_assoc.
    + apply (Herr j x e); [done..|].
      clear -Hys. induction Hys; constructor; eauto.
  - rewrite contents_app_new. intros [] h' (ys & Hys & ->).
    rewrite firstn_all in Hys. rewrite drop_all, app_nil_r. by apply Hok.
Qed.

Lemma wp_sorted_Ok l xs (h : heap) Q :
  h !! l = Some xs →
  Q (Ok (length h)) (h ++ [snd <$> sort_by_key ((λ k, (k, k)) <$> xs)]) →
  wp (sorted l Ok) h Q.
Proof.
  intros Hl HQ. unfold wp, sorted.
  by rewrite (contents_lookup _ _ _ Hl), decorate_Ok.
Qed.

(** The first in-place loop: faces to positions. *)
Lemma to_positions_wp (h : heap) d sort (Q : outcome unit → heap → Prop) :
  (valid_deck d → Q (Ok ()) (h ++ [rank_key <$> d])) →
  (∀ e zs, checked KeyError sort d = Raise e → Q (Raise e) (h ++ [zs])) →
  wp (for_enumerate (length h) (λ index face _,
        v <- lift (getitem card_values face) ;; setitem (length h) index v) ())
     (h ++ [d]) Q.
Proof.
  intros Hok Herr. apply map_in_place_wp.
  - intros ys Hys.
    assert (Hv : valid_deck d).
    { clear -Hys. induction Hys as [|x y xs ys Hxy _ IH]; constructor; [|done].
      by apply getitem_card_values_Ok in Hxy as [? _]. }
    rewrite (Forall2_fmap_total _ rank_key _ _ Hys); [by apply Hok|].
    intros x y _ Hxy. by apply getitem_card_values_Ok in Hxy as [_ ?].
  - intros j x e zs Hx [Hinv ->]%getitem_card_values_Raise Hpre.
    apply Herr. eapply checked_invalid; [|done..].
    eapply Forall_impl; [exact Hpre|]. simpl.
    by intros c [k [? _]%getitem_card_values_Ok].
Qed.

(** The second in-place loop: positions back to faces. *)
Lemma to_faces_wp (h : heap) ks (Q : outcome unit → heap → Prop) :
  Forall (λ k, ∃ c, c ∈ card_faces ∧ k = rank_key c) ks →
  Q (Ok ()) (h ++ [face_of <$> ks]) →
  wp (for_enumerate (length h) (λ index value _,
        f <- lift (subscript card_faces value) ;; setitem (length h) index f) ())
     (h ++ [ks]) Q.
Proof.
  intros Hks HQ. apply map_in_place_wp.
  - intros ys Hys.
    rewrite (Forall2_fmap_total _ face_of _ _ Hys); [done|].
    intros x y _ Hxy. unfold face_of. by rewrite Hxy.
  - intros j x e zs Hx Hraise _. exfalso.
    rewrite Forall_forall in Hks.
    destruct (Hks x) as (c & Hc & ->); [by eapply list_elem_of_lookup_2|].
    by rewrite subscript_rank_key in Hraise.
Qed.

Lemma rank_keys_of_valid d :
  valid_deck d → Forall (λ k, ∃ c, c ∈ card_faces ∧ k = rank_key c) (rank_key <$> d).
Proof.
  intros Hd. apply Forall_fmap. eapply Forall_impl; [exact Hd|].
  simpl. eauto.
Qed.

Lemma face_of_rank_keys d : valid_deck d → face_of <$> (rank_key <$> d) = d.
Proof.
  induction 1 as [|c d Hc _ IH]; [done|].
  by rewrite !fmap_cons, face_of_rank_key, IH.
Qed.

Lemma bubble_sort_wp (h : heap) deck d (Q : outcome loc → heap → Prop) :
  h !! deck = Some d →
  (valid_deck d → Q (Ok (length h)) (h ++ [d])) →
  (∀ e zs, checked KeyError (λ d, d) d = Raise e → Q (Raise e) (h ++ [zs])) →
  wp (bubble_sort deck) h Q.
Proof.
  intros Hd Hok Herr. unfold bubble_sort.
  apply wp_bind. apply (wp_copy _ d); [done|].
  apply wp_bind, (to_positions_wp h d (λ d, d)).
  - intros Hv. apply wp_bind, to_faces_wp; [by apply rank_keys_of_valid|].
    apply wp_pure. rewrite face_of_rank_keys by done. by apply Hok.
  - intros e zs He. by apply Herr.
Qed.

Lemma bubble_sort_answers : answers BubbleSort (checked KeyError (λ d, d)).
Proof.
  apply answers_wp. intros h deck d Hd.
  apply (bubble_sort_wp h deck d _ Hd).
  - intros Hv. apply post_return; [by apply prefix_app_r|new_object|].
    by rewrite checked_valid, contents_app_new.
  - intros e zs He. by apply post_raise; [apply prefix_app_r|].
Qed.

Lemma sort_replace_wp (h : heap) deck d (Q : outcome loc → heap → Prop) :
  h !! deck = Some d →
  (valid_deck d →
     Q (Ok (length (h ++ [rank_key <$> d])))
       ((h ++ [rank_key <$> d]) ++ [by_replace d])) →
  (∀ e zs, checked KeyError by_replace d = Raise e → Q (Raise e) (h ++ [zs])) →
  wp (sort_replace deck) h Q.
Proof.
  intros Hd Hok Herr. unfold sort_replace.
  apply wp_bind. apply (wp_copy _ d); [done|].
  apply wp_bind, (to_positions_wp h d by_replace).
  - intros Hv. apply wp_bind.
    apply (wp_sorted_Ok _ (rank_key <$> d)); [apply list_lookup_middle; done|].
    apply wp_bind, to_faces_wp.
    + rewrite sorted_keys_perm. by apply rank_keys_of_valid.
    + by apply wp_pure, Hok.
  - intros e zs He. by apply Herr.
Qed.

Lemma sort_replace_answers : answers SortReplace (checked KeyError by_replace).
Proof.
  apply answers_wp. intros h deck d Hd.
  apply (sort_replace_wp h deck d _ Hd).
  - intros Hv. apply post_return.
    + rewrite <- app_assoc. by apply prefix_app_r.
    + new_object.
    + by rewrite checked_valid, contents_app_new.
  - intros e zs He. by apply post_raise; [apply prefix_app_r|].
Qed.

(** The buckets and their dict as the second loop of [sort_ordered_dict]
    leaves them. *)
Lemma make_buckets_wp (h : heap) (Q : outcome ordered_dict → heap → Prop) :
  Q (Ok (zip card_faces (seq (length h) (length card_faces))))
    (h ++ replicate (length card_faces) []) →
  wp (for_each card_faces (λ face ordered_cards,
        bucket <- new_list [] ;;
        pure (od_setitem ordered_cards face bucket)) []) h Q.
Proof.
  intros HQ.
  apply (wp_for_each
    (λ pre oc h', h' = h ++ replicate (length pre) [] ∧
                  oc = zip pre (seq (length h) (length pre))) _ _ _ []).
  - split; [|done]. by rewrite app_nil_r.
  - intros pre f oc h' [post Hpost] [-> ->]. simpl in Hpost.
    apply wp_bind, wp_new_list, wp_pure.
    rewrite !length_app, length_replicate. simpl.
    rewrite Nat.add_1_r, replicate_S_end, seq_S. split; [by rewrite app_assoc|].
    rewrite od_setitem_fresh.
    + rewrite zip_with_app by (by rewrite length_seq). done.
    + rewrite fst_zip by (rewrite length_seq; lia).
      pose proof card_faces_NoDup as Hnd. rewrite Hpost in Hnd.
      apply NoDup_app in Hnd as (_ & Hnd & _). intros Hin.
      apply (Hnd f Hin). left.
  - by intros oc h' [-> ->].
Qed.

(** The third loop of [sort_ordered_dict]: every card goes to the end of
    the bucket of its face. *)
Lemma deal_wp (hb : heap) deck d (Q : outcome unit → heap → Prop) :
  hb !! deck = Some d →
  (valid_deck d → Q (Ok ()) (hb ++ buckets d)) →
  (∀ e bs, checked KeyError by_counts d = Raise e → Q (Raise e) (hb ++ bs)) →
  wp (for_in deck (λ card _,
        bucket <- lift (od_getitem
                          (zip card_faces (seq (length hb) (length card_faces)))
                          card) ;;
        append bucket card) ())
     (hb ++ buckets []) Q.
Proof.
  intros Hd Hok Herr.
  apply (wp_for_enumerate
    (λ j _ h', valid_deck (take j d) ∧ h' = hb ++ buckets (take j d))).
  - rewrite take_0. by split; [apply Forall_nil|].
  - rewrite (contents_app_old _ _ _ _ Hd). intros j [] h' Hj [Hv ->].
    rewrite (contents_app_old _ _ _ _ Hd).
    destruct (lookup_lt_is_Some_2 d j Hj) as [x Hx].
    exists x. split; [done|]. apply wp_bind, wp_lift.
    rewrite od_getitem_zip. fold (rank x).
    destruct (rank x) as [i|] eqn:Hi.
    + apply rank_Some in Hi. apply wp_append.
      rewrite (take_S_r _ _ _ Hx). split.
      * apply valid_deck_snoc; [done|]. by eapply list_elem_of_lookup_2.
      * unfold contents at 1. rewrite lookup_app_r by lia.
        replace (length hb + i - length hb)%nat with i by lia.
        rewrite (buckets_lookup _ x i Hi). simpl.
        by rewrite insert_app_r, buckets_snoc.
    + apply Herr. eapply checked_invalid; [done..|]. by apply rank_None.
  - rewrite (contents_app_old _ _ _ _ Hd). intros [] h' [Hv ->].
    rewrite firstn_all in Hv |- *. by apply Hok.
Qed.

(** The last loop of [sort_ordered_dict]: the buckets are added to the
    result one after the other. *)
Lemma gather_wp (h : heap) (bs : list (list val)) (Q : outcome unit → heap → Prop) :
  Q (Ok ()) ((h ++ [concat bs]) ++ bs) →
  wp (for_each (seq (Datatypes.S (length h)) (length bs)) (λ card_set _,
        extend_from (length h) card_set) ())
     ((h ++ [[]]) ++ bs) Q.
Proof.
  intros HQ.
  apply (wp_for_each
    (λ pre _ h', h' = (h ++ [concat (take (length pre) bs)]) ++ bs) _ _ _ []).
  - done.
  - intros pre l [] h' [post Hpost] ->. simpl in Hpost.
    assert (Hl : seq (Datatypes.S (length h)) (length bs) !! length pre = Some l).
    { rewrite Hpost. by apply list_lookup_middle. }
    apply lookup_seq in Hl as [-> Hlt].
    destruct (lookup_lt_is_Some_2 bs (length pre) Hlt) as [b Hb].
    apply wp_extend_from.
    assert (Hret : contents ((h ++ [concat (take (length pre) bs)]) ++ bs) (length h)
                   = concat (take (length pre) bs)).
    { apply contents_app_old, list_lookup_middle. done. }
    assert (Hbucket : contents ((h ++ [concat (take (length pre) bs)]) ++ bs)
                        (Datatypes.S (length h) + length pre)%nat = b).
    { apply contents_lookup. rewrite lookup_app_r; rewrite length_app; simpl; [|lia].
      by replace (Datatypes.S (length h + length pre) - (length h + 1))%nat
        with (length pre) by lia. }
    rewrite Hret, Hbucket.
    rewrite insert_app_l by (rewrite length_app; simpl; lia).
    rewrite insert_app_new, length_app. simpl.
    rewrite Nat.add_1_r, (take_S_r _ _ _ Hb), concat_app. simpl.
    by rewrite app_nil_r.
  - intros [] h' ->. simpl. by rewrite length_seq, firstn_all.
Qed.

Lemma sort_ordered_dict_wp (h : heap) deck d (Q : outcome loc → heap → Prop) :
  h !! deck = Some d →
  (valid_deck d → Q (Ok (length h)) ((h ++ [by_counts d]) ++ buckets d)) →
  (∀ e bs, checked KeyError by_counts d = Raise e →
     Q (Raise e) ((h ++ [[]]) ++ bs)) →
  wp (sort_ordered_dict deck) h Q.
Proof.
  intros Hd Hok Herr. unfold sort_ordered_dict.
  apply wp_bind, wp_new_list.
  apply wp_bind, make_buckets_wp. rewrite <- buckets_nil.
  apply wp_bind, (deal_wp _ deck d).
  - by apply lookup_app_l_Some.
  - intros Hv. apply wp_bind.
    unfold od_values. rewrite snd_zip by (by rewrite length_seq).
    replace (length (h ++ [[]])) with (Datatypes.S (length h))
      by (rewrite length_app; simpl; lia).
    replace (length card_faces) with (length (buckets d))
      by (unfold buckets; by rewrite length_fmap).
    apply gather_wp, wp_pure. rewrite concat_buckets. by apply Hok.
  - intros e bs He. by apply Herr.
Qed.

Lemma sort_ordered_dict_answers :
  answers SortOrderedDict (checked KeyError by_counts).
Proof.
  apply answers_wp. intros h deck d Hd.
  apply (sort_ordered_dict_wp h deck d _ Hd).
  - intros Hv. apply post_return.
    + rewrite <- !app_assoc. by apply prefix_app_r.
    + new_object.
    + rewrite checked_valid by done. f_equal. symmetry.
      apply contents_app_old, list_lookup_middle. done.
  - intros e bs He. apply post_raise; [|done].
    rewrite <- app_assoc. by apply prefix_app_r.
Qed.

End Strategies.

(** ** The sorted decks *)

Module Order.
Import Py Cards Facts.

#[export] Instance rank_le_trans : Transitive rank_le.
Proof.
  intros a b c. unfold rank_le.
  destruct (rank a), (rank b), (rank c); try done. lia.
Qed.

#[export] Instance rank_le_antisymm : AntiSymm (=) rank_le.
Proof.
  intros a b. unfold rank_le.
  destruct (rank a) as [i|] eqn:Ha, (rank b) as [j|] eqn:Hb; try done.
  intros Hij Hji. apply (rank_inj a b i); [done|].
  rewrite Hb. f_equal. lia.
Qed.

Lemma rank_le_refl c : c ∈ card_faces → rank_le c c.
Proof.
  intros [i Hi]%rank_is_Some. unfold rank_le. by rewrite Hi.
Qed.

(** There is one sorted arrangement of a deck. *)
Lemma rank_sorted_unique l1 l2 :
  rank_sorted l1 → rank_sorted l2 → l1 ≡ₚ l2 → l1 = l2.
Proof. apply (Sorted_unique rank_le). Qed.

(** The builtin sort on integer keys. *)
Section builtin_sort.
Variable wf : val * val → Prop.
Hypothesis wf_int : ∀ p, wf p → ∃ z, p.1 = Int z.

Lemma le_total_int p q : wf p → wf q → cmp_le p.1 q.1 = false → cmp_le q.1 p.1.
Proof.
  intros [x Hx]%wf_int [y Hy]%wf_int. rewrite Hx, Hy. simpl.
  intros H%bool_decide_eq_false. apply bool_decide_pack. lia.
Qed.

Lemma insert_by_key_HdRel p k x l :
  key_ord wf p (k, x) → HdRel (key_ord wf) p l → HdRel (key_ord wf) p (insert_by_key k x l).
Proof.
  intros Hp Hl. destruct l as [|[k' y] l]; simpl; [by constructor|].
  destruct (cmp_le k k'); constructor; [done|].
  by apply HdRel_inv in Hl.
Qed.

Lemma insert_by_key_sorted k x l :
  wf (k, x) → Forall wf l →
  Sorted (key_ord wf) l → Sorted (key_ord wf) (insert_by_key k x l).
Proof.
  intros Hkx Hwf Hl.
  induction l as [|[k' y] l IH]; simpl; [by repeat constructor|].
  apply Forall_cons in Hwf as [Hky Hwf].
  apply Sorted_inv in Hl as [Hl Hhd].
  destruct (cmp_le k k') eqn:Hle.
  - constructor; [by constructor|]. constructor.
    split_and!; [done..|]. simpl. by rewrite Hle.
  - constructor; [by apply IH|].
    apply insert_by_key_HdRel; [|done].
    split_and!; [done..|]. by apply (le_total_int (k, x) (k', y)).
Qed.

Lemma sort_by_key_sorted l : Forall wf l → Sorted (key_ord wf) (sort_by_key l).
Proof.
  induction 1 as [|[k x] l Hkx Hl IH]; simpl; [constructor|].
  apply insert_by_key_sorted; [done| |done].
  by rewrite sort_by_key_perm.
Qed.
End builtin_sort.

Lemma le_rank_keys a b :
  a ∈ card_faces → b ∈ card_faces → cmp_le (rank_key a) (rank_key b) → rank_le a b.
Proof.
  intros [i Hi]%rank_is_Some [j Hj]%rank_is_Some.
  unfold rank_key, rank_le. rewrite Hi, Hj. simpl.
  intros H%bool_decide_unpack. lia.
Qed.

Lemma by_rank_perm d : by_rank d ≡ₚ d.
Proof.
  unfold by_rank. rewrite sort_by_key_perm, <- list_fmap_compose.
  by rewrite list_fmap_id.
Qed.

Lemma by_rank_sorted d : valid_deck d → rank_sorted (by_rank d).
Proof.
  intros Hd. unfold by_rank, rank_sorted.
  set (wf := λ p : val * val, p.2 ∈ card_faces ∧ p.1 = rank_key p.2).
  apply (Sorted_fmap _ (key_ord wf)).
  - intros [k a] [k' b] ([Ha ->] & [Hb ->] & Hle). simpl in *.
    by apply le_rank_keys.
  - apply sort_by_key_sorted.
    + intros [k a] [_ ->]. simpl. by eexists.
    + apply Forall_fmap. eapply Forall_impl; [exact Hd|]. by intros c Hc.
Qed.

Lemma by_replace_perm d : valid_deck d → by_replace d ≡ₚ d.
Proof.
  intros Hd. unfold by_replace.
  by rewrite sorted_keys_perm, Strategies.face_of_rank_keys.
Qed.

Lemma by_replace_sorted d : valid_deck d → rank_sorted (by_replace d).
Proof.
  intros Hd. unfold by_replace, rank_sorted.
  set (wf := λ p : val * val, ∃ c, c ∈ card_faces ∧ p = (rank_key c, rank_key c)).
  rewrite <- list_fmap_compose.
  apply (Sorted_fmap _ (key_ord wf)).
  - intros p q ((a & Ha & ->) & (b & Hb & ->) & Hle). simpl in *.
    rewrite !face_of_rank_key by done. by apply le_rank_keys.
  - apply sort_by_key_sorted.
    + intros p (c & _ & ->). simpl. by eexists.
    + rewrite <- list_fmap_compose. apply Forall_fmap.
      eapply Forall_impl; [exact Hd|]. intros c Hc. by exists c.
Qed.

(** Adding a card to one bucket adds it to the gathered buckets. *)
Lemma concat_insert_snoc (bs : list (list val)) i b x :
  bs !! i = Some b → concat (<[i := b ++ [x]]> bs) ≡ₚ x :: concat bs.
Proof.
  revert i. induction bs as [|b' bs IH]; intros [|i] Hi; simplify_eq/=.
  - rewrite <- app_assoc. simpl. by rewrite <- Permutation_middle.
  - rewrite (IH i Hi). by rewrite <- Permutation_middle.
Qed.

(** A value that is not a face goes to no bucket. *)
Lemma buckets_snoc_invalid p x : x ∉ card_faces → buckets (p ++ [x]) = buckets p.
Proof.
  intros Hx. unfold buckets. apply list_fmap_ext. intros i f Hf.
  rewrite filter_app, filter_cons, filter_nil.
  rewrite decide_False; [by rewrite app_nil_r|].
  intros ->. apply Hx. by eapply list_elem_of_lookup_2.
Qed.

(** The counts keep the faces of a deck and nothing else. *)
Lemma by_counts_perm_filter d :
  by_counts d ≡ₚ filter (λ c, c ∈ card_faces) d.
Proof.
  rewrite <- concat_buckets.
  induction d as [|x d IH] using rev_ind.
  - unfold buckets. by induction card_faces.
  - rewrite filter_app, filter_cons, filter_nil.
    case_decide as Hx.
    + destruct (rank_is_Some x Hx) as [i Hi%rank_Some].
      rewrite <- (buckets_snoc d x i Hi).
      rewrite concat_insert_snoc by by apply buckets_lookup.
      by rewrite IH, Permutation_cons_append.
    + by rewrite buckets_snoc_invalid, app_nil_r.
Qed.

Lemma filter_valid d : valid_deck d → filter (λ c, c ∈ card_faces) d = d.
Proof.
  induction 1 as [|c d Hc _ IH]; [done|].
  by rewrite filter_cons, decide_True, IH.
Qed.

Lemma by_counts_perm d : valid_deck d → by_counts d ≡ₚ d.
Proof. intros Hd. by rewrite by_counts_perm_filter, filter_valid. Qed.

Lemma card_faces_sorted : StronglySorted rank_le card_faces.
Proof. apply (bool_decide_unpack (StronglySorted rank_le card_faces)). by vm_compute. Qed.

(** Runs of equal faces in the order of [card_faces] are sorted, whatever
    their lengths. *)
Lemma runs_sorted (n : val → nat) (l : list val) :
  StronglySorted rank_le l → Forall (λ c, c ∈ card_faces) l →
  StronglySorted rank_le (l ≫= (λ f, replicate (n f) f)).
Proof.
  induction 1 as [|f l Hl IH Hfl]; intros Hv; [constructor|].
  apply Forall_cons in Hv as [Hf Hv]. simpl.
  apply StronglySorted_app_2.
  - intros x y ->%elem_of_replicate_inv
      (g & ->%elem_of_replicate_inv & Hg)%list_elem_of_bind.
    rewrite Forall_forall in Hfl. by apply Hfl.
  - induction (n f) as [|k IHk]; simpl; constructor; [done|].
    apply Forall_forall. intros x ->%elem_of_replicate_inv.
    by apply rank_le_refl.
  - by apply IH.
Qed.

Lemma by_counts_sorted d : rank_sorted (by_counts d).
Proof.
  apply StronglySorted_Sorted, runs_sorted; [apply card_faces_sorted|].
  by apply Forall_forall.
Qed.

(** For a deck of faces the three ways to sort give the same list. *)
Lemma by_counts_by_rank d : valid_deck d → by_counts d = by_rank d.
Proof.
  intros Hd. apply rank_sorted_unique.
  - apply by_counts_sorted.
  - by apply by_rank_sorted.
  - by rewrite by_counts_perm, by_rank_perm.
Qed.

Lemma by_replace_by_rank d : valid_deck d → by_replace d = by_rank d.
Proof.
  intros Hd. apply rank_sorted_unique.
  - by apply by_replace_sorted.
  - by apply by_rank_sorted.
  - by rewrite by_replace_perm, by_rank_perm.
Qed.

(** A sorted deck is sorted to itself. *)
Lemma by_rank_fixed d : valid_deck d → rank_sorted d → by_rank d = d.
Proof.
  intros Hd Hs. apply rank_sorted_unique; [by apply by_rank_sorted|done|].
  apply by_rank_perm.
Qed.

Lemma valid_deck_filter d : valid_deck (filter (λ c, c ∈ card_faces) d).
Proof. apply Forall_forall. by intros c [? _]%list_elem_of_filter. Qed.

(** [sort_counter] sorts the faces of any deck. *)
Lemma by_counts_filter d :
  by_counts d = by_rank (filter (λ c, c ∈ card_faces) d).
Proof.
  apply rank_sorted_unique.
  - apply by_counts_sorted.
  - apply by_rank_sorted, valid_deck_filter.
  - by rewrite by_counts_perm_filter, by_rank_perm.
Qed.

End Order.

(** ** The strategies as functions of the deck *)

Module Calls.
Import Py Cards Hoare Facts Strategies Order.

Lemma strategy_answers s : answers s (answer s).
Proof.
  destruct s; simpl.
  - apply sort_with_val_dict_answers.
  - apply sort_with_val_index_answers.
  - apply sort_with_dict_counts_answers.
  - apply sort_ordered_dict_answers.
  - apply sort_counter_answers.
  - apply sort_replace_answers.
  - apply bubble_sort_answers.
Qed.

Lemma call_answer s (h : heap) deck d :
  h !! deck = Some d → call s h deck = answer s d.
Proof.
  intros Hd. destruct (strategy_answers s h deck d Hd) as (_ & H & _).
  unfold call. rewrite <- H. unfold returned, store_after.
  by destruct (body s deck h).
Qed.

Lemma store_frame s (h : heap) deck d :
  h !! deck = Some d → h `prefix_of` store_after s h deck.
Proof. intros Hd. by destruct (strategy_answers s h deck d Hd) as (H & _ & _). Qed.

Lemma returned_fresh s (h : heap) deck d r :
  h !! deck = Some d → returned s h deck = Ok r →
  (length h ≤ r < length (store_after s h deck))%nat.
Proof. intros Hd. destruct (strategy_answers s h deck d Hd) as (_ & _ & H). apply H. Qed.

(** On a deck of faces six strategies answer the sorted deck and
    [bubble_sort] answers the deck. *)
Lemma answer_valid s d :
  valid_deck d → answer s d = Ok (if decide (s = BubbleSort) then d else by_rank d).
Proof.
  intros Hd. destruct s; simpl; rewrite ?checked_valid by done; try done.
  - by rewrite by_counts_by_rank.
  - by rewrite by_counts_by_rank.
  - by rewrite by_counts_by_rank.
  - by rewrite by_replace_by_rank.
Qed.

Lemma call_sorting s (h : heap) deck d :
  s ≠ BubbleSort → h !! deck = Some d → valid_deck d →
  call s h deck = Ok (by_rank d).
Proof.
  intros Hs Hd Hv. rewrite (call_answer s h deck d Hd), answer_valid by done.
  by rewrite decide_False.
Qed.

Lemma call_bubble_sort (h : heap) deck d :
  h !! deck = Some d → valid_deck d → call BubbleSort h deck = Ok d.
Proof.
  intros Hd Hv. by rewrite (call_answer _ h deck d Hd), answer_valid.
Qed.

(** On a sorted deck of faces every strategy answers the deck. *)
Lemma call_sorted s (h : heap) deck d :
  h !! deck = Some d → valid_deck d → rank_sorted d → call s h deck = Ok d.
Proof.
  intros Hd Hv Hs. rewrite (call_answer s h deck d Hd), answer_valid by done.
  case_decide; [done|]. by rewrite by_rank_fixed.
Qed.

(** On a deck with a value that is not a face six strategies raise the
    lookup error of the first such value. *)
Lemma answer_invalid s d x :
  first_invalid d = Some x →
  answer s d = match s with
               | SortCounter => Ok (by_rank (filter (λ c, c ∈ card_faces) d))
               | SortWithValIndex => Raise (ValueError x)
               | _ => Raise (KeyError x)
               end.
Proof.
  intros Hx. destruct s; simpl; unfold checked; rewrite ?Hx; try done.
  by rewrite by_counts_filter.
Qed.

Lemma invalid_deck_first d :
  Exists (λ c, c ∉ card_faces) d →
  ∃ x, first_invalid d = Some x ∧ x ∈ d ∧ x ∉ card_faces.
Proof.
  intros Hex. destruct (first_invalid d) as [x|] eqn:Hx.
  - exists x. split; [done|].
    apply first_invalid_Some in Hx as (pre & post & -> & _ & Hx).
    split; [|done]. apply elem_of_app. right. left.
  - apply first_invalid_None in Hx.
    apply Exists_exists in Hex as (c & Hc & Hnot).
    unfold valid_deck in Hx. rewrite Forall_forall in Hx.
    destruct Hnot. by apply Hx.
Qed.

Lemma valid_deck_replicate c n : c ∈ card_faces → valid_deck (replicate n c).
Proof. intros Hc. by apply Forall_replicate. Qed.

Lemma rank_sorted_replicate c n : c ∈ card_faces → rank_sorted (replicate n c).
Proof.
  intros Hc. induction n as [|n IH]; simpl; [constructor|].
  constructor; [done|]. destruct n; simpl; constructor.
  by apply rank_le_refl.
Qed.

(** The harness passes the blocks of the strategies that sort. *)
Lemma harness_upto_passes n (h : heap) deck d :
  h !! deck = Some d → valid_deck d →
  (BubbleSort ∈ take n strategies → rank_sorted d) →
  (harness_upto n deck h).1 = Ok ().
Proof.
  intros Hd Hv Hbubble. unfold harness_upto.
  change ((?m h).1 = Ok ()) with (wp m h (λ o _, o = Ok ())).
  apply wp_bind.
  eapply wp_mono;
    [apply (sorted_keys_answer _ ValueError h deck d);
       [apply list_index_Some|apply list_index_None|done]|].
  rewrite checked_valid by done.
  intros [b|e] h1 (Hpre & Hres & Hfresh); [|done].
  simpl in Hres. injection Hres as Hb.
  apply (wp_for_each (λ _ _ h', h1 `prefix_of` h') _ _ _ []);
    [done| |by intros []].
  intros pre s [] h' [post Hpost] Hh'. simpl in Hpost.
  assert (Hd' : h' !! deck = Some d).
  { eapply prefix_lookup_Some; [done|]. by etrans. }
  assert (Hs : s ∈ take n strategies).
  { rewrite Hpost. apply elem_of_app. right. left. }
  apply wp_bind.
  eapply wp_mono; [apply (strategy_answers s h' deck d Hd')|].
  assert (Hans : answer s d = Ok (by_rank d)).
  { rewrite answer_valid by done. case_decide as Hsb; [|done].
    subst s. f_equal. symmetry. by apply by_rank_fixed; [|apply Hbubble]. }
  rewrite Hans. intros [r|e] h2 (Hpre' & Hres' & _); [|done].
  simpl in Hres'. injection Hres' as Hr.
  unfold wp, assert_equal. rewrite decide_True; [simpl; by etrans|].
  destruct (lookup_lt_is_Some_2 h1 b) as [xs Hxs]; [apply Hfresh; done|].
  rewrite Hr, <- Hb, (contents_lookup h1 b xs Hxs).
  symmetry. apply contents_lookup.
  eapply prefix_lookup_Some; [done|]. by etrans.
Qed.

(** Each strategy but [bubble_sort] is a genuine sort: on a deck of faces
    it hands back the deck's cards in non-decreasing position order. *)
Lemma sorting_strategy_genuine s (h : heap) deck d :
  s ≠ BubbleSort → h !! deck = Some d → valid_deck d →
  ∃ out, call s h deck = Ok out ∧ rank_sorted out ∧ out ≡ₚ d.
Proof.
  intros Hs Hd Hv. exists (by_rank d). split_and!.
  - by apply call_sorting.
  - by apply by_rank_sorted.
  - apply by_rank_perm.
Qed.

(** The store records in-place updates: the first loop of [sort_replace]
    run on the deck itself, without the copy, overwrites the deck. *)
Example in_place_loop_overwrites :
  (for_enumerate 0%nat (λ index face _,
     v <- lift (getitem card_values face) ;; setitem 0%nat index v)%py ()
     [[King; Ace]]).2 = [[Int 12; Int 0]].
Proof. by vm_compute. Qed.

End Calls.

(** ** The properties of the specification *)

Import Py Cards Calls.

Ltac by_evaluation :=
  match goal with
  | |- ?P => apply (bool_decide_unpack P); vm_compute; exact I
  end.

(** C1 (sorted output).  The specification asks that every strategy hands
    back a sequence that is non-decreasing in the position order.
    [bubble_sort] does not: on the deck [King, Ace] it hands back
    [King, Ace], which is not sorted, and the harness, which passes the
    blocks of the six other strategies on this deck, fails its assertion on
    [bubble_sort]. *)
Theorem bubble_sort_output_not_sorted :
  valid_deck [King; Ace] ∧
  call BubbleSort [[King; Ace]] 0%nat = Ok [King; Ace] ∧
  ¬ rank_sorted [King; Ace] ∧
  (harness_upto 6 0%nat [[King; Ace]]).1 = Ok () ∧
  (harness 0%nat [[King; Ace]]).1 = Raise AssertionError.
Proof.
  split_and!; [by_evaluation|by vm_compute|by_evaluation|by vm_compute..].
Qed.

(** C2 (permutation).  For every deck of card faces, every strategy hands
    back a permutation of the deck: the same elements with the same
    multiplicities, and the same length. *)
Theorem output_is_permutation s (h : heap) deck d :
  h !! deck = Some d → valid_deck d →
  ∃ out, call s h deck = Ok out ∧ out ≡ₚ d ∧ length out = length d.
Proof.
  intros Hd Hv. destruct (decide (s = BubbleSort)) as [->|Hs].
  - exists d. by rewrite (call_bubble_sort h deck d).
  - destruct (sorting_strategy_genuine s h deck d) as (out & Hout & _ & Hp);
      [done..|].
    exists out. split_and!; [done..|]. by rewrite Hp.
Qed.

Lemma output_is_permutation_witness :
  ∃ out, call SortOrderedDict [[King; Ace; Int 2; King; Jack]] 0%nat = Ok out ∧
         out ≡ₚ [King; Ace; Int 2; King; Jack] ∧ length out = 5%nat.
Proof.
  apply (output_is_permutation SortOrderedDict
           [[King; Ace; Int 2; King; Jack]] 0%nat [King; Ace; Int 2; King; Jack]).
  - reflexivity.
  - by_evaluation.
Defined.

(** C3 (cross-strategy agreement).  On a deck of card faces the strategies
    hand back element-wise equal sequences, provided 4.3g is implemented as
    a genuine sort: the six strategies other than [bubble_sort] agree with
    one another, and they agree with any implementation [genuine] put in
    the place of [bubble_sort] that hands back the deck's cards in
    non-decreasing position order. *)
Theorem cross_strategy_agreement (genuine : loc → M loc) :
  (∀ (h : heap) deck d, h !! deck = Some d → valid_deck d →
     ∃ out, result_of (genuine deck h) = Ok out ∧ rank_sorted out ∧ out ≡ₚ d) →
  ∀ (h : heap) deck d s s',
    h !! deck = Some d → valid_deck d →
    s ≠ BubbleSort → s' ≠ BubbleSort →
    call s h deck = call s' h deck ∧
    call s h deck = result_of (genuine deck h).
Proof.
  intros Hgen h deck d s s' Hd Hv Hs Hs'.
  rewrite !(call_sorting _ h deck d) by done. split; [done|].
  destruct (Hgen h deck d Hd Hv) as (out & -> & Hsorted & Hperm).
  f_equal. apply Order.rank_sorted_unique; [|done|].
  - by apply Order.by_rank_sorted.
  - by rewrite Order.by_rank_perm.
Qed.

Lemma cross_strategy_agreement_witness :
  call SortWithValDict [[King; Ace; Int 2; King; Jack]] 0%nat
  = call SortCounter [[King; Ace; Int 2; King; Jack]] 0%nat ∧
  call SortWithValDict [[King; Ace; Int 2; King; Jack]] 0%nat
  = result_of (sort_replace 0%nat [[King; Ace; Int 2; King; Jack]]).
Proof.
  apply (cross_strategy_agreement sort_replace)
    with (d := [King; Ace; Int 2; King; Jack]).
  - intros h deck d Hd Hv.
    by apply (sorting_strategy_genuine SortReplace).
  - reflexivity.
  - by_evaluation.
  - discriminate.
  - discriminate.
Defined.

(** C4 ([bubble_sort] is the identity).  For every deck of card faces
    [bubble_sort] hands back a sequence element-wise equal to the deck: the
    mapping of a face to its position followed by the mapping of the
    position to its face gives the face back, and nothing is reordered in
    between. *)
Theorem bubble_sort_returns_deck (h : heap) deck d :
  h !! deck = Some d → valid_deck d →
  call BubbleSort h deck = Ok d ∧
  ∀ c, c ∈ card_faces →
    ∃ v, getitem card_values c = Ok v ∧ subscript card_faces v = Ok c.
Proof.
  intros Hd Hv. split; [by apply call_bubble_sort|].
  intros c Hc. exists (rank_key c).
  split; [|by apply Facts.subscript_rank_key].
  destruct (Facts.rank_is_Some c Hc) as [i Hi].
  rewrite (Facts.getitem_card_values_Some c i Hi).
  unfold rank_key. by rewrite Hi.
Qed.

Lemma bubble_sort_returns_deck_witness :
  call BubbleSort [[King; Ace; Int 2; King; Jack]] 0%nat
  = Ok [King; Ace; Int 2; King; Jack] ∧
  ∀ c, c ∈ card_faces →
    ∃ v, getitem card_values c = Ok v ∧ subscript card_faces v = Ok c.
Proof.
  apply (bubble_sort_returns_deck [[King; Ace; Int 2; King; Jack]] 0%nat
           [King; Ace; Int 2; King; Jack]).
  - reflexivity.
  - by_evaluation.
Defined.

(** C5 (concrete scenario).  The specification expects every strategy to
    answer [Ace, 2, Jack, King, King] to the deck
    [King, Ace, 2, King, Jack].  Six strategies do; [bubble_sort] hands the
    deck back as it is, and the harness fails its assertion on it. *)
Theorem scenario_king_ace_2_king_jack :
  (λ s, call s [[King; Ace; Int 2; King; Jack]] 0%nat) <$> strategies
  = [ Ok [Ace; Int 2; Jack; King; King];
      Ok [Ace; Int 2; Jack; King; King];
      Ok [Ace; Int 2; Jack; King; King];
      Ok [Ace; Int 2; Jack; King; King];
      Ok [Ace; Int 2; Jack; King; King];
      Ok [Ace; Int 2; Jack; King; King];
      Ok [King; Ace; Int 2; King; Jack] ] ∧
  (harness 0%nat [[King; Ace; Int 2; King; Jack]]).1 = Raise AssertionError.
Proof. split; by vm_compute. Qed.

(** C6 (unrecognized labels), as stated: every strategy raises on a deck
    with a label that is not a face.  [sort_counter] does not: its
    [Counter] takes any label, and the labels that are not faces are left
    out of the result. *)
Lemma sort_counter_drops_unrecognized :
  Exists (λ c, c ∉ card_faces) [King; Str "Joker"; Ace] ∧
  call SortCounter [[King; Str "Joker"; Ace]] 0%nat = Ok [Ace; King] ∧
  ¬ (∀ s (h : heap) deck d,
       h !! deck = Some d → Exists (λ c, c ∉ card_faces) d →
       ∃ e, call s h deck = Raise e).
Proof.
  assert (Hex : Exists (λ c, c ∉ card_faces) [King; Str "Joker"; Ace])
    by by_evaluation.
  split_and!; [done|by vm_compute|].
  intros H.
  destruct (H SortCounter [[King; Str "Joker"; Ace]] 0%nat _ eq_refl Hex)
    as [e He].
  vm_compute in He. discriminate.
Qed.

(** C6, amended.  For every deck with a label that is not a face, the six
    strategies that look every card up raise the lookup error of the first
    such label of the deck ([ValueError] from [sort_with_val_index],
    [KeyError] from the others); [sort_counter] raises nothing and hands
    back the faces of the deck, sorted, without the other labels. *)
Theorem unrecognized_label (h : heap) deck d :
  h !! deck = Some d → Exists (λ c, c ∉ card_faces) d →
  ∃ x, x ∈ d ∧ (x ∉ card_faces) ∧ first_invalid d = Some x ∧
    ∀ s, call s h deck
         = match s with
           | SortCounter => Ok (by_rank (filter (λ c, c ∈ card_faces) d))
           | SortWithValIndex => Raise (ValueError x)
           | _ => Raise (KeyError x)
           end.
Proof.
  intros Hd Hex.
  destruct (invalid_deck_first d Hex) as (x & Hfirst & Hin & Hnot).
  exists x. split_and!; [done..|]. intros s.
  rewrite (call_answer s h deck d Hd). by apply answer_invalid.
Qed.

Lemma unrecognized_label_witness :
  ∃ x, x ∈ [King; Str "Joker"; Ace; Int 11] ∧ (x ∉ card_faces) ∧
    first_invalid [King; Str "Joker"; Ace; Int 11] = Some x ∧
    ∀ s, call s [[King; Str "Joker"; Ace; Int 11]] 0%nat
         = match s with
           | SortCounter =>
               Ok (by_rank (filter (λ c, c ∈ card_faces)
                              [King; Str "Joker"; Ace; Int 11]))
           | SortWithValIndex => Raise (ValueError x)
           | _ => Raise (KeyError x)
           end.
Proof.
  apply (unrecognized_label [[King; Str "Joker"; Ace; Int 11]] 0%nat).
  - reflexivity.
  - by_evaluation.
Defined.

(** C7 (idempotence).  For every deck of card faces that is already sorted
    by position, every strategy hands back the same sequence. *)
Theorem sorted_deck_is_fixed_point s (h : heap) deck d :
  h !! deck = Some d → valid_deck d → rank_sorted d →
  call s h deck = Ok d.
Proof. apply call_sorted. Qed.

Lemma sorted_deck_is_fixed_point_witness :
  call SortReplace [[Ace; Int 2; Int 2; Jack; King; King]] 0%nat
  = Ok [Ace; Int 2; Int 2; Jack; King; King].
Proof.
  apply (sorted_deck_is_fixed_point SortReplace
           [[Ace; Int 2; Int 2; Jack; King; King]] 0%nat).
  - reflexivity.
  - by_evaluation.
  - by_evaluation.
Defined.

(** C8 (boundaries).  For every strategy: the empty deck gives the empty
    sequence; a deck of one card gives that card; a deck of [n] copies of
    one face gives a sequence of length [n] of that face repeated [n]
    times. *)
Theorem boundary_decks s (h : heap) deck :
  (h !! deck = Some [] → call s h deck = Ok []) ∧
  (∀ c, c ∈ card_faces → h !! deck = Some [c] → call s h deck = Ok [c]) ∧
  (∀ c n, c ∈ card_faces → h !! deck = Some (replicate n c) →
     call s h deck = Ok (replicate n c) ∧ length (replicate n c) = n).
Proof.
  split_and!.
  - intros Hd. apply (call_sorted s h deck [] Hd); constructor.
  - intros c Hc Hd. apply (call_sorted s h deck [c] Hd).
    + by apply (valid_deck_replicate c 1).
    + by apply (rank_sorted_replicate c 1).
  - intros c n Hc Hd. split; [|apply length_replicate].
    apply (call_sorted s h deck _ Hd).
    + by apply valid_deck_replicate.
    + by apply rank_sorted_replicate.
Qed.

Lemma boundary_decks_witness :
  call SortWithDictCounts [[]] 0%nat = Ok [] ∧
  call SortWithDictCounts [[Int 5]] 0%nat = Ok [Int 5] ∧
  call SortWithDictCounts [[Queen; Queen; Queen]] 0%nat = Ok [Queen; Queen; Queen].
Proof.
  split_and!.
  - by apply (boundary_decks SortWithDictCounts [[]] 0%nat).
  - apply (boundary_decks SortWithDictCounts [[Int 5]] 0%nat);
      [by_evaluation|reflexivity].
  - apply (boundary_decks SortWithDictCounts [[Queen; Queen; Queen]] 0%nat
             ) with (n := 3%nat); [by_evaluation|reflexivity].
Defined.

(** C9 (frame).  No strategy mutates the deck: after a call the deck's list
    object holds the elements it held before, as does every other object
    that was in the store; the list a strategy hands back, and with it the
    list that [sort_replace] and [bubble_sort] overwrite in place, is an
    object made during the call.  This holds for every deck, the decks of
    card faces among them. *)
Theorem deck_not_mutated s (h : heap) deck d :
  h !! deck = Some d →
  store_after s h deck !! deck = Some d ∧
  (∀ l xs, h !! l = Some xs → store_after s h deck !! l = Some xs) ∧
  (∀ r, returned s h deck = Ok r → r ≠ deck ∧ h !! r = None).
Proof.
  intros Hd. pose proof (store_frame s h deck d Hd) as Hframe.
  split_and!.
  - by eapply prefix_lookup_Some.
  - intros l xs Hl. by eapply prefix_lookup_Some.
  - intros r Hr. pose proof (returned_fresh s h deck d r Hd Hr) as Hfresh.
    apply lookup_lt_Some in Hd. split; [lia|].
    apply lookup_ge_None. lia.
Qed.

Lemma deck_not_mutated_witness :
  store_after SortReplace [[King; Ace; Int 2; King; Jack]] 0%nat !! 0%nat
  = Some [King; Ace; Int 2; King; Jack] ∧
  (∀ l xs, [[King; Ace; Int 2; King; Jack]] !! l = Some xs →
     store_after SortReplace [[King; Ace; Int 2; King; Jack]] 0%nat !! l = Some xs) ∧
  (∀ r, returned SortReplace [[King; Ace; Int 2; King; Jack]] 0%nat = Ok r →
     r ≠ 0%nat ∧ [[King; Ace; Int 2; King; Jack]] !! r = None).
Proof.
  apply (deck_not_mutated SortReplace [[King; Ace; Int 2; King; Jack]] 0%nat).
  reflexivity.
Defined.

(** C10 (baseline).  For every deck of card faces [sort_with_val_index]
    hands back what the harness computes as its baseline, the two being the
    same call of [sorted], and the harness passes its assertion on
    [sort_with_val_index]: it runs through the blocks of
    [sort_with_val_dict] and [sort_with_val_index] without an exception. *)
Theorem sort_with_val_index_is_baseline (h : heap) deck d :
  h !! deck = Some d → valid_deck d →
  call SortWithValIndex h deck = result_of (baseline deck h) ∧
  (harness_upto 2 deck h).1 = Ok ().
Proof.
  intros Hd Hv. split; [done|].
  apply (harness_upto_passes 2 h deck d Hd Hv).
  intros Hin. exfalso. revert Hin. by_evaluation.
Qed.

Lemma sort_with_val_index_is_baseline_witness :
  call SortWithValIndex [[King; Ace; Int 2; King; Jack]] 0%nat
  = result_of (baseline 0%nat [[King; Ace; Int 2; King; Jack]]) ∧
  (harness_upto 2 0%nat [[King; Ace; Int 2; King; Jack]]).1 = Ok ().
Proof.
  apply (sort_with_val_index_is_baseline
           [[King; Ace; Int 2; King; Jack]] 0%nat [King; Ace; Int 2; King; Jack]).
  - reflexivity.
  - by_evaluation.
Defined.

(** ** Further properties of the program *)

(** X1.  The two key functions of [sort_with_val_dict] and [sort_with_val_index]
    agree on every label: on a face both give its position, a number below
    13; on any other label the dict lookup raises [KeyError] and the list
    search raises [ValueError]. *)
Theorem key_functions_agree (c : val) :
  (∃ i : nat, (i < 13)%nat ∧ card_faces !! i = Some c ∧
     getitem card_values c = Ok (Int (Z.of_nat i)) ∧
     list_index card_faces c = Ok (Int (Z.of_nat i)))
  ∨ ((c ∉ card_faces) ∧
     getitem card_values c = Raise (KeyError c) ∧
     list_index card_faces c = Raise (ValueError c)).
Proof.
  destruct (rank c) as [i|] eqn:Hi.
  - left. exists i. split_and!.
    + by apply Facts.find_index_lt in Hi.
    + by apply Facts.rank_Some.
    + by apply Facts.getitem_card_values_Some.
    + by apply Facts.list_index_Some.
  - right. split_and!.
    + by apply Facts.rank_None.
    + by apply Facts.getitem_card_values_None.
    + by apply Facts.list_index_None.
Qed.

(** X2.  Position to face to position: for every position from 0 to 12,
    [card_faces] holds a face there and [card_values] maps that face back to
    the position. *)
Theorem position_round_trip (z : Z) :
  0 ≤ z < 13 →
  ∃ c, subscript card_faces (Int z) = Ok c ∧ c ∈ card_faces ∧
       getitem card_values c = Ok (Int z).
Proof.
  intros Hz.
  destruct (lookup_lt_is_Some_2 card_faces (Z.to_nat z)) as [c Hc];
    [simpl; lia|].
  exists c. split_and!.
  - unfold subscript. destruct (decide (z < 0)) as [?|_]; [lia|].
    rewrite decide_True by (simpl; lia). by rewrite Hc.
  - by eapply list_elem_of_lookup_2.
  - rewrite (Facts.getitem_card_values_Some c (Z.to_nat z)).
    + by rewrite Z2Nat.id by lia.
    + by apply Facts.find_index_NoDup; [apply Facts.card_faces_NoDup|].
Qed.

Lemma position_round_trip_witness :
  ∃ c, subscript card_faces (Int 10) = Ok c ∧ c ∈ card_faces ∧
       getitem card_values c = Ok (Int 10).
Proof. apply (position_round_trip 10). lia. Defined.

(** X3.  The harness passes the blocks of the six strategies that come before
    [bubble_sort], whatever the deck of faces: none of their assertions
    fails and none of them raises. *)
Theorem harness_passes_sorting_blocks n (h : heap) deck d :
  h !! deck = Some d → valid_deck d → (n ≤ 6)%nat →
  (harness_upto n deck h).1 = Ok ().
Proof.
  intros Hd Hv Hn. apply (harness_upto_passes n h deck d Hd Hv).
  intros Hin. exfalso.
  do 7 (destruct n as [|n]; [revert Hin; by_evaluation|]). lia.
Qed.

Lemma harness_passes_sorting_blocks_witness :
  (harness_upto 6 0%nat [[King; Ace; Int 2; King; Jack]]).1 = Ok ().
Proof.
  apply (harness_passes_sorting_blocks 6 [[King; Ace; Int 2; King; Jack]]
           0%nat [King; Ace; Int 2; King; Jack]).
  - reflexivity.
  - by_evaluation.
  - lia.
Defined.

(** X4.  On a deck with a label that is not a face the harness stops at the
    baseline: [sorted] raises the [ValueError] of the first such label, no
    strategy is run and the store is as it was. *)
Theorem harness_stops_at_baseline n (h : heap) deck d x :
  h !! deck = Some d → first_invalid d = Some x →
  harness_upto n deck h = (Raise (ValueError x), h).
Proof.
  intros Hd Hx. unfold harness_upto, bind, baseline.
  rewrite (Strategies.sorted_keys_run _ ValueError h deck d);
    [|apply Facts.list_index_Some|apply Facts.list_index_None|done].
  by rewrite Hx.
Qed.

Lemma harness_stops_at_baseline_witness :
  harness_upto 7 0%nat [[King; Str "Joker"; Ace]]
  = (Raise (ValueError (Str "Joker")), [[King; Str "Joker"; Ace]]).
Proof.
  apply (harness_stops_at_baseline 7 [[King; Str "Joker"; Ace]] 0%nat
           [King; Str "Joker"; Ace]); reflexivity.
Defined.

(** X5.  The order of the blocks does not matter to the answers: a strategy
    called after any other strategy has run answers as it does when called
    first, for every deck. *)
Theorem call_after_call s s' (h : heap) deck d :
  h !! deck = Some d →
  call s (store_after s' h deck) deck = call s h deck.
Proof.
  intros Hd. rewrite (call_answer s h deck d Hd).
  apply call_answer. eapply prefix_lookup_Some; [done|].
  by apply (store_frame s' h deck d).
Qed.

Lemma call_after_call_witness :
  call SortWithDictCounts
    (store_after SortReplace [[King; Ace; Int 2; King; Jack]] 0%nat) 0%nat
  = call SortWithDictCounts [[King; Ace; Int 2; King; Jack]] 0%nat.
Proof.
  by apply (call_after_call SortWithDictCounts SortReplace
              [[King; Ace; Int 2; King; Jack]] 0%nat
              [King; Ace; Int 2; King; Jack]).
Defined.

(** X6.  Sorting what a sorting strategy handed back changes nothing: any of the
    seven strategies, run on the list object that one of the six sorting
    strategies returned for a deck of faces, returns an equal list. *)
Theorem strategy_on_sorted_output s s' (h : heap) deck d :
  h !! deck = Some d → valid_deck d → s' ≠ BubbleSort →
  ∃ r, returned s' h deck = Ok r ∧
       call s (store_after s' h deck) r = call s' h deck.
Proof.
  intros Hd Hv Hs'.
  destruct (strategy_answers s' h deck d Hd) as (_ & Hres & Hfresh).
  rewrite answer_valid, decide_False in Hres by done.
  rewrite (call_sorting s' h deck d) by done.
  destruct (returned s' h deck) as [r|e] eqn:Hr; [|done].
  exists r. split; [done|]. simpl in Hres. injection Hres as Hres.
  destruct (lookup_lt_is_Some_2 (store_after s' h deck) r) as [xs Hxs];
    [by apply Hfresh|].
  rewrite (Hoare.contents_lookup _ _ _ Hxs) in Hres. subst xs.
  apply call_sorted; [done| |by apply Order.by_rank_sorted].
  unfold valid_deck. by rewrite Order.by_rank_perm.
Qed.

Lemma strategy_on_sorted_output_witness :
  ∃ r, returned SortCounter [[King; Ace; Int 2; King; Jack]] 0%nat = Ok r ∧
       call BubbleSort
         (store_after SortCounter [[King; Ace; Int 2; King; Jack]] 0%nat) r
       = call SortCounter [[King; Ace; Int 2; King; Jack]] 0%nat.
Proof.
  apply (strategy_on_sorted_output BubbleSort SortCounter
           [[King; Ace; Int 2; King; Jack]] 0%nat
           [King; Ace; Int 2; King; Jack]).
  - reflexivity.
  - by_evaluation.
  - discriminate.
Defined.

(** *** The whole harness and the script *)

Module Script.
Import Hoare Facts Strategies Order.
Local Open Scope py_scope.

Lemma for_each_app {A S} (xs ys : list A) (body : A → S → M S) s (h : heap) :
  for_each (xs ++ ys) body s h
  = bind (for_each xs body s) (for_each ys body) h.
Proof.
  revert s h. induction xs as [|x xs IH]; intros s h; [done|].
  simpl. unfold bind in *. by destruct (body x s h) as [[s'|e] h'].
Qed.

Lemma wp_for_each_app {A S} (xs ys : list A) (body : A → S → M S) s (h : heap) Q :
  wp (for_each xs body s) h
     (λ o h', match o with
              | Ok s' => wp (for_each ys body s') h' Q
              | Raise e => Q (Raise e) h'
              end) →
  wp (for_each (xs ++ ys) body s) h Q.
Proof. intros H. unfold wp. rewrite for_each_app. by apply wp_bind. Qed.

(** The blocks of strategies that answer the baseline pass. *)
Lemma blocks_wp (ss : list strategy) (h1 : heap) deck b d
    (Q : outcome unit → heap → Prop) :
  h1 !! deck = Some d → h1 !! b = Some (by_rank d) →
  Forall (λ s, answer s d = Ok (by_rank d)) ss →
  (∀ h', h1 `prefix_of` h' → Q (Ok ()) h') →
  wp (for_each ss (λ s _, assert_baseline s deck b) ()) h1 Q.
Proof.
  intros Hd Hb Hss HQ.
  apply (wp_for_each (λ _ _ h', h1 `prefix_of` h') _ _ _ []);
    [done| |by intros [] h'; apply HQ].
  intros pre s [] h' [post Hpost] Hh'. simpl in Hpost.
  assert (Hans : answer s d = Ok (by_rank d)).
  { rewrite Forall_forall in Hss. apply Hss. rewrite Hpost.
    apply elem_of_app. right. left. }
  apply wp_bind.
  eapply wp_mono;
    [apply (strategy_answers s h' deck d); by eapply prefix_lookup_Some|].
  rewrite Hans. intros [r|e] h2 (Hpre & Hres & _); [|done].
  simpl in Hres. injection Hres as Hr.
  unfold wp, assert_equal. rewrite decide_True; [simpl; by etrans|].
  rewrite Hr. symmetry. apply contents_lookup.
  eapply prefix_lookup_Some; [done|]. by etrans.
Qed.

(** The block of [bubble_sort] passes on the sorted decks only. *)
Lemma bubble_sort_block_wp (h' : heap) deck b d :
  h' !! deck = Some d → h' !! b = Some (by_rank d) → valid_deck d →
  (assert_baseline BubbleSort deck b h').1
  = if decide (rank_sorted d) then Ok () else Raise AssertionError.
Proof.
  intros Hd Hb Hv.
  change ((?m h').1 = ?x) with (wp m h' (λ o _, o = x)).
  apply wp_bind.
  eapply wp_mono; [apply (strategy_answers BubbleSort h' deck d Hd)|].
  rewrite answer_valid by done. simpl.
  intros [r|e] h2 (Hpre & Hres & _); [|done].
  simpl in Hres. injection Hres as Hr.
  unfold wp, assert_equal.
  rewrite Hr, (contents_lookup h2 b (by_rank d))
    by by eapply prefix_lookup_Some.
  destruct (decide (rank_sorted d)) as [Hs|Hs].
  - by rewrite decide_True by (symmetry; by apply by_rank_fixed).
  - rewrite decide_False; [done|]. intros Heq. apply Hs.
    rewrite Heq. by apply by_rank_sorted.
Qed.

Lemma sorting_strategies_answer d :
  valid_deck d →
  Forall (λ s, answer s d = Ok (by_rank d)) (take 6 strategies).
Proof.
  intros Hv. repeat constructor; by rewrite answer_valid.
Qed.

Lemma harness_run (h : heap) deck d :
  h !! deck = Some d → valid_deck d →
  (harness deck h).1
  = if decide (rank_sorted d) then Ok () else Raise AssertionError.
Proof.
  intros Hd Hv. unfold harness, harness_upto.
  change ((?m h).1 = ?x) with (wp m h (λ o _, o = x)).
  apply wp_bind. unfold wp at 1, baseline.
  rewrite (sorted_keys_run _ ValueError h deck d);
    [|apply list_index_Some|apply list_index_None|done].
  apply first_invalid_None in Hv as Hnone. rewrite Hnone. cbn [fst snd].
  change (take (length strategies) strategies)
    with (take 6 strategies ++ [BubbleSort]).
  apply wp_for_each_app.
  apply (blocks_wp _ _ deck (length h) d).
  - by apply lookup_app_l_Some.
  - by apply list_lookup_middle.
  - by apply sorting_strategies_answer.
  - intros h' Hh'. simpl. apply wp_bind.
    unfold wp at 1.
    rewrite (bubble_sort_block_wp h' deck (length h) d); [|..|done].
    + by destruct (decide (rank_sorted d)).
    + eapply prefix_lookup_Some; [|done]. by apply lookup_app_l_Some.
    + eapply prefix_lookup_Some; [|done]. by apply list_lookup_middle.
Qed.

Lemma choice_in_range (seq : list val) draw c :
  seq !! draw = Some c → choice seq draw = Ok c.
Proof.
  intros Hc. pose proof (lookup_lt_Some _ _ _ Hc) as Hlt.
  unfold choice, subscript.
  destruct (decide (Z.of_nat draw < 0)) as [?|_]; [lia|].
  rewrite decide_True by lia. by rewrite Nat2Z.id, Hc.
Qed.

Lemma draw_cards_in_range draws :
  Forall (λ draw, (draw < 13)%nat) draws →
  ∃ d, draw_cards draws = Ok d ∧
       Forall2 (λ draw c, card_faces !! draw = Some c) draws d.
Proof.
  induction 1 as [|draw draws Hlt _ (d & Hd & Hall)]; simpl.
  - exists []. by split; [|constructor].
  - destruct (lookup_lt_is_Some_2 card_faces draw Hlt) as [c Hc].
    exists (c :: d). rewrite (choice_in_range _ _ _ Hc), Hd.
    by split; [|constructor].
Qed.

Lemma drawn_deck_valid draws d :
  Forall2 (λ draw c, card_faces !! draw = Some c) draws d → valid_deck d.
Proof.
  induction 1 as [|draw c draws d Hc _ IH]; constructor; [|done].
  by eapply list_elem_of_lookup_2.
Qed.


End Script.

(** X7.  The harness on a deck of faces ends without an exception when the deck
    is already sorted, and otherwise with the [AssertionError] of the block
    of [bubble_sort], the only block that can fail. *)
Theorem harness_outcome (h : heap) deck d :
  h !! deck = Some d → valid_deck d →
  (harness deck h).1
  = if decide (rank_sorted d) then Ok () else Raise AssertionError.
Proof. apply Script.harness_run. Qed.

Lemma harness_outcome_witness :
  (harness 0%nat [[Ace; Int 2; Jack; King; King]]).1
  = (if decide (rank_sorted [Ace; Int 2; Jack; King; King])
     then Ok () else Raise AssertionError) ∧
  (harness 0%nat [[King; Ace; Int 2; King; Jack]]).1
  = (if decide (rank_sorted [King; Ace; Int 2; King; Jack])
     then Ok () else Raise AssertionError).
Proof.
  split.
  - apply (harness_outcome [[Ace; Int 2; Jack; King; King]] 0%nat);
      [reflexivity|by_evaluation].
  - apply (harness_outcome [[King; Ace; Int 2; King; Jack]] 0%nat);
      [reflexivity|by_evaluation].
Defined.



(** X9.  The deck the script builds: when every number drawn is a position of
    [card_faces], as [random.choice] draws them, the comprehension makes one
    new list object with one card per draw, the card at the drawn position,
    so the deck is a deck of faces. *)
Theorem make_deck_valid draws (h : heap) :
  Forall (λ draw, (draw < 13)%nat) draws →
  ∃ d, make_deck draws h = (Ok (length h), h ++ [d]) ∧
       Forall2 (λ draw c, card_faces !! draw = Some c) draws d ∧
       valid_deck d ∧ length d = length draws.
Proof.
  intros Hdraws.
  destruct (Script.draw_cards_in_range draws Hdraws) as (d & Hd & Hall).
  exists d. split_and!.
  - unfold make_deck, bind, lift. by rewrite Hd.
  - done.
  - by eapply Script.drawn_deck_valid.
  - symmetry. by eapply Forall2_length.
Qed.

Lemma make_deck_valid_witness :
  ∃ d, make_deck [12; 0; 1; 12; 10]%nat [] = (Ok (length ([] : heap)), [] ++ [d]) ∧
       Forall2 (λ draw c, card_faces !! draw = Some c) [12; 0; 1; 12; 10]%nat d ∧
       valid_deck d ∧ length d = length [12; 0; 1; 12; 10]%nat.
Proof.
  apply (make_deck_valid [12; 0; 1; 12; 10]%nat []).
  by_evaluation.
Defined.



(** X11.  The script from the deck on: whatever positions are drawn, no strategy
    raises a lookup error and the six blocks before [bubble_sort] pass; the
    run ends without an exception only when the drawn deck happens to be
    sorted, and otherwise with the [AssertionError] of the last block. *)
Theorem script_outcome draws (h : heap) :
  Forall (λ draw, (draw < 13)%nat) draws →
  ∃ d, draw_cards draws = Ok d ∧ valid_deck d ∧
       (script draws h).1
       = if decide (rank_sorted d) then Ok () else Raise AssertionError.
Proof.
  intros Hdraws.
  destruct (Script.draw_cards_in_range draws Hdraws) as (d & Hd & Hall).
  pose proof (Script.drawn_deck_valid draws d Hall) as Hv.
  exists d. split_and!; [done..|].
  unfold script, make_deck, bind, lift. rewrite Hd.
  apply Script.harness_run; [|done]. by apply list_lookup_middle.
Qed.

Lemma script_outcome_witness :
  ∃ d, draw_cards [12; 0; 1; 12; 10]%nat = Ok d ∧ valid_deck d ∧
       (script [12; 0; 1; 12; 10]%nat []).1
       = if decide (rank_sorted d) then Ok () else Raise AssertionError.
Proof.
  apply (script_outcome [12; 0; 1; 12; 10]%nat []).
  by_evaluation.
Defined.

(** X12.  [sort_counter] never raises: for every deck, with or without labels
    that are not faces, it hands back a sorted list that holds exactly the
    faces of the deck, each as often as the deck does. *)
Theorem sort_counter_total (h : heap) deck d :
  h !! deck = Some d →
  ∃ out, call SortCounter h deck = Ok out ∧ rank_sorted out ∧
         out ≡ₚ filter (λ c, c ∈ card_faces) d.
Proof.
  intros Hd. exists (by_counts d). split_and!.
  - by rewrite (call_answer SortCounter h deck d Hd).
  - apply Order.by_counts_sorted.
  - apply Order.by_counts_perm_filter.
Qed.

Lemma sort_counter_total_witness :
  ∃ out, call SortCounter [[King; Str "Joker"; Ace; Int 11; King]] 0%nat = Ok out ∧
         rank_sorted out ∧
         out ≡ₚ filter (λ c, c ∈ card_faces) [King; Str "Joker"; Ace; Int 11; King].
Proof.
  by apply (sort_counter_total [[King; Str "Joker"; Ace; Int 11; King]] 0%nat).
Defined.



(** X14.  The answer of a strategy depends on the elements of the deck only: not
    on where the deck lies in the store, nor on what else the store
    holds. *)
Theorem call_depends_on_deck_only s (h h' : heap) deck deck' d :
  h !! deck = Some d → h' !! deck' = Some d →
  call s h deck = call s h' deck'.
Proof.
  intros Hd Hd'.
  by rewrite (call_answer s h deck d Hd), (call_answer s h' deck' d Hd').
Qed.

Lemma call_depends_on_deck_only_witness :
  call SortOrderedDict [[King; Ace; Int 2]] 0%nat
  = call SortOrderedDict [[Jack]; []; [King; Ace; Int 2]] 2%nat.
Proof.
  by apply (call_depends_on_deck_only SortOrderedDict
              [[King; Ace; Int 2]] [[Jack]; []; [King; Ace; Int 2]]
              0%nat 2%nat [King; Ace; Int 2]).
Defined.
